(** * The image-moderation service: [backend/app/views.py]

    A shallow embedding of the three Flask handlers
    ([get_groups_with_images], [update_image_status], [get_statistics])
    together with the fragment of the document store they talk to, and the
    properties of the handlers that the design document states.

    Conventions.
    - Python [str] values are [string]s (sequences of 8-bit characters);
      Python [int]s are [Z].
    - A [datetime] is a [Z]: the number of milliseconds since the epoch,
      which is the resolution at which the store keeps and compares dates;
      the bounds of Python's [datetime] (years 1 to 9999) are left out.
    - An [ObjectId] is the list of its raw bytes.
    - Handlers are programs over the store's operations ([prog]); [run]
      executes a program against a reference store and records the
      operations it issued. *)

From stdpp Require Import base decidable option list sorting strings gmap fin_maps.
From Stdlib Require Import ZArith Ascii.
From Stdlib.Strings Require Import Byte.

Local Open Scope Z_scope.

(** ** Python values used by the handlers *)

(** [x or y] of Python on an optional string: [None] and [''] are falsy. *)
Definition truthy (o : option string) : bool :=
  match o with
  | Some s => negb (String.eqb s "")
  | None => false
  end.

(** The value bound to [groups_per_page]: the query string's text, or the
    configured integer. *)
Inductive pyval :=
| PStr (s : string)
| PInt (n : Z).

Definition py_or (o : option string) (default : pyval) : pyval :=
  match o with
  | Some s => if truthy o then PStr s else default
  | None => default
  end.

(** [request.args.get(key)]: the first value bound to [key], if any. *)
Fixpoint args_get (key : string) (args : list (string * string)) : option string :=
  match args with
  | [] => None
  | (k, v) :: rest => if String.eqb k key then Some v else args_get key rest
  end.

(** *** [markupsafe.escape] *)

Definition dquote : ascii := ascii_of_nat 34.
Definition squote : ascii := ascii_of_nat 39.

Definition escape_char (c : ascii) : string :=
  if Ascii.eqb c "&"%char then "&amp;"
  else if Ascii.eqb c "<"%char then "&lt;"
  else if Ascii.eqb c ">"%char then "&gt;"
  else if Ascii.eqb c squote then "&#39;"
  else if Ascii.eqb c dquote then "&#34;"
  else String c "".

Fixpoint escape (s : string) : string :=
  match s with
  | EmptyString => ""
  | String c rest => escape_char c +:+ escape rest
  end.

(** *** [int(str)] *)

Inductive ValueError :=
| InvalidLiteral (literal : string).

(** [str(err)] for the error [int] raises: the [repr] of the literal, cut
    at 200 characters.  The literal is a [Markup] object here, and its text
    holds no quote once escaped; characters that [repr] would write with a
    backslash are kept as they are. *)
Definition str_ValueError (e : ValueError) : string :=
  match e with
  | InvalidLiteral lit =>
      "invalid literal for int() with base 10: "
      +:+ String.substring 0 200 ("Markup('" +:+ lit +:+ "')")
  end.

(** ASCII white space: what [int] strips and [bytes.fromhex] skips. *)
Definition is_space (c : ascii) : bool :=
  let n := N_of_ascii c in
  ((9 <=? n) && (n <=? 13) || (n =? 32))%N.

Definition digit_of (c : ascii) : option Z :=
  let n := Z.of_N (N_of_ascii c) in
  if (48 <=? n) && (n <=? 57) then Some (n - 48) else None.

Fixpoint lstrip (s : string) : string :=
  match s with
  | String c rest => if is_space c then lstrip rest else s
  | EmptyString => s
  end.

Fixpoint all_space (s : string) : bool :=
  match s with
  | EmptyString => true
  | String c rest => is_space c && all_space rest
  end.

(** The digits of a literal, after the sign.  [prev_digit] tells what came
    before: a digit (an underscore, white space or the end may follow) or
    not (a digit has to follow).  White space ends the literal once a
    digit was read, and only white space may follow it. *)
Fixpoint digits (acc : Z) (prev_digit : bool) (s : string) : option Z :=
  match s with
  | EmptyString => if prev_digit then Some acc else None
  | String c rest =>
      match digit_of c with
      | Some d => digits (10 * acc + d) true rest
      | None =>
          if Ascii.eqb c "_"%char then
            if prev_digit then digits acc false rest else None
          else if prev_digit && all_space s then Some acc
          else None
      end
  end.

(** [int(s)] on a string: optional white space, an optional sign, decimal
    digits with single underscores between them, optional white space.
    (Strings are sequences of 8-bit characters here: the digits and white
    space that Unicode has outside ASCII are left out.) *)
Definition int_literal (s : string) : option Z :=
  match lstrip s with
  | String "-"%char rest => Z.opp <$> digits 0 false rest
  | String "+"%char rest => digits 0 false rest
  | t => digits 0 false t
  end.

(** Errors of the [try] block: the first [ValueError] ends it. *)
#[global] Instance sum_ret {E : Type} : MRet (sum E) := λ A x, inr x.
#[global] Instance sum_bind {E : Type} : MBind (sum E) :=
  λ A B f x, match x with inl e => inl e | inr a => f a end.

(** [int(escape(v))].  For a configured integer [n], [escape(n)] is the
    markup of [str(n)] and [int] reads [n] back. *)
Definition int_escape (v : pyval) : ValueError + Z :=
  match v with
  | PInt n => inr n
  | PStr s =>
      match int_literal (escape s) with
      | Some n => inr n
      | None => inl (InvalidLiteral (escape s))
      end
  end.

(** *** [bson.ObjectId] *)

Definition ObjectId := list byte.

#[global] Instance byte_eq_decision : EqDecision byte := byte_eq_dec.

Definition hex_digit (c : ascii) : option N :=
  let n := N_of_ascii c in
  if ((48 <=? n) && (n <=? 57))%N then Some (n - 48)%N
  else if ((97 <=? n) && (n <=? 102))%N then Some (n - 87)%N
  else if ((65 <=? n) && (n <=? 70))%N then Some (n - 55)%N
  else None.

(** [bytes.fromhex]: pairs of hexadecimal digits, ASCII white space
    between pairs skipped. *)
Fixpoint fromhex (s : string) : option (list byte) :=
  match s with
  | EmptyString => Some []
  | String c rest =>
      if is_space c then fromhex rest
      else
        match rest with
        | String d rest' =>
            match hex_digit c, hex_digit d with
            | Some h, Some l =>
                cons (byte_of_ascii (ascii_of_N (16 * h + l))) <$> fromhex rest'
            | _, _ => None
            end
        | EmptyString => None
        end
  end.

Inductive InvalidId :=
| InvalidIdOf (oid : string).

Definition str_InvalidId (e : InvalidId) : string :=
  match e with
  | InvalidIdOf oid =>
      "'" +:+ oid +:+ "' is not a valid ObjectId, it must be a 12-byte input or a 24-character hex string"
  end.

(** [ObjectId(image_id)] on a string: 24 characters that [fromhex] reads. *)
Definition ObjectId_of (image_id : string) : InvalidId + ObjectId :=
  if (String.length image_id =? 24)%nat then
    match fromhex image_id with
    | Some b => inr b
    | None => inl (InvalidIdOf image_id)
    end
  else inl (InvalidIdOf image_id).

(** ** Data model *)

Definition datetime := Z.

Module Image.
Record t := mk {
  _id : ObjectId;
  group_id : ObjectId;
  status : string;
  created_at : datetime;
  last_updated_at : datetime;
  url : string;
}.
End Image.

Module Group.
Record t := mk {
  _id : ObjectId;
  name : string;
}.
End Group.

(** The two collections of [models.models]. *)
Record Store := {
  groups_collection : list Group.t;
  images_collection : list Image.t;
}.

(** ** Aggregation over the groups collection *)

(** The value of the [images] field of a document inside the pipeline:
    missing, the joined array, or one image once the array is unwound. *)
Inductive images_field :=
| NoImages
| ImageArr (l : list Image.t)
| ImageOne (i : Image.t).

Module Doc.
Record t := mk {
  _id : ObjectId;
  name : string;
  images : images_field;
  count : option Z;
}.
End Doc.

(** The stages the handler puts in its pipeline. *)
Inductive stage :=
| S_lookup                (* $lookup from images, _id = group_id, as images *)
| S_unwind                (* $unwind $images *)
| S_match (status : string)   (* $match images.status *)
| S_sort_last_updated     (* $sort images.last_updated_at: -1 *)
| S_group                 (* $group by _id: first name, push images, sum 1 *)
| S_sort_name             (* $sort name: 1 *)
| S_skip (n : Z)
| S_limit (n : Z).

(** The order in which the store returns documents that compare equal
    under a sort key is the store's choice: a sort is any function that
    returns a sorted rearrangement of its input. *)
Class StoreSort := {
  sort_by : ∀ {A : Type} (R : relation A) `{!RelDecision R}, list A → list A;
  sort_by_Permutation :
    ∀ {A : Type} (R : relation A) `{!RelDecision R} (l : list A),
      sort_by R l ≡ₚ l;
  sort_by_StronglySorted :
    ∀ {A : Type} (R : relation A) `{!RelDecision R} `{!Transitive R} `{!Total R}
      (l : list A), StronglySorted R (sort_by R l);
}.

#[global] Program Instance merge_StoreSort : StoreSort := {|
  sort_by A R _ l := merge_sort R l;
|}.
Next Obligation. intros. apply merge_sort_Permutation. Qed.
Next Obligation. intros. by apply StronglySorted_merge_sort. Qed.

Definition of_group (g : Group.t) : Doc.t :=
  Doc.mk (Group._id g) (Group.name g) NoImages None.

Definition is_row (d : Doc.t) : bool :=
  match Doc.images d with
  | ImageOne _ => true
  | _ => false
  end.

Definition lookup_images (images : list Image.t) (d : Doc.t) : Doc.t :=
  Doc.mk (Doc._id d) (Doc.name d)
    (ImageArr (filter (λ i, Image.group_id i = Doc._id d) images))
    (Doc.count d).

Definition unwind_images (d : Doc.t) : list Doc.t :=
  match Doc.images d with
  | NoImages => []
  | ImageArr l => (λ i, Doc.mk (Doc._id d) (Doc.name d) (ImageOne i) (Doc.count d)) <$> l
  | ImageOne _ => [d]
  end.

Definition match_status (s : string) (d : Doc.t) : bool :=
  match Doc.images d with
  | NoImages => false
  | ImageArr l => existsb (λ i, bool_decide (Image.status i = s)) l
  | ImageOne i => bool_decide (Image.status i = s)
  end.

Definition row_updated_at (d : Doc.t) : datetime :=
  match Doc.images d with
  | ImageOne i => Image.last_updated_at i
  | _ => 0
  end.

(** Descending on [images.last_updated_at]; ascending on [name]. *)
Definition newer_first (d1 d2 : Doc.t) : Prop :=
  row_updated_at d2 ≤ row_updated_at d1.

Definition name_le (d1 d2 : Doc.t) : Prop :=
  String.le (Doc.name d1) (Doc.name d2).

#[global] Instance newer_first_dec : RelDecision newer_first.
Proof. intros d1 d2. unfold newer_first. apply _. Defined.
#[global] Instance newer_first_trans : Transitive newer_first.
Proof. intros x y z. unfold newer_first. lia. Qed.
#[global] Instance newer_first_total : Total newer_first.
Proof. intros x y. unfold newer_first. lia. Qed.

#[global] Instance name_le_dec : RelDecision name_le.
Proof. intros d1 d2. unfold name_le. apply _. Defined.
#[global] Instance name_le_trans : Transitive name_le.
Proof. intros x y z. unfold name_le. apply transitivity. Qed.
#[global] Instance name_le_total : Total name_le.
Proof. intros x y. unfold name_le. apply total, _. Qed.

(** [$group]: one accumulator per [_id], in order of first appearance;
    [$first] keeps the name of the first row, [$push] appends, [$sum: 1]
    counts. *)
Record group_acc := {
  acc_id : ObjectId;
  acc_first : string;
  acc_push : list Image.t;
  acc_sum : Z;
}.

Fixpoint accumulate (id : ObjectId) (nm : string) (img : Image.t)
    (accs : list group_acc) : list group_acc :=
  match accs with
  | [] => [{| acc_id := id; acc_first := nm; acc_push := [img]; acc_sum := 1 |}]
  | a :: rest =>
      if decide (acc_id a = id) then
        {| acc_id := acc_id a; acc_first := acc_first a;
           acc_push := acc_push a ++ [img]; acc_sum := acc_sum a + 1 |} :: rest
      else a :: accumulate id nm img rest
  end.

Definition group_step (accs : list group_acc) (d : Doc.t) : list group_acc :=
  match Doc.images d with
  | ImageOne i => accumulate (Doc._id d) (Doc.name d) i accs
  | _ => accs
  end.

Definition group_result (a : group_acc) : Doc.t :=
  Doc.mk (acc_id a) (acc_first a) (ImageArr (acc_push a)) (Some (acc_sum a)).

Definition group_by_id (rows : list Doc.t) : list Doc.t :=
  group_result <$> foldl group_step [] rows.

Section Pipeline.
Context `{StoreSort}.

(** One stage on the documents that reach it.  [None]: the stage would
    have to traverse an array or push a missing field, which this
    fragment of the aggregation language leaves out. *)
Definition run_stage (images : list Image.t) (st : stage)
    (docs : list Doc.t) : option (list Doc.t) :=
  match st with
  | S_lookup => Some (lookup_images images <$> docs)
  | S_unwind => Some (docs ≫= unwind_images)
  | S_match s => Some (filter (λ d, match_status s d = true) docs)
  | S_sort_last_updated =>
      if forallb is_row docs then Some (sort_by newer_first docs) else None
  | S_group =>
      if forallb is_row docs then Some (group_by_id docs) else None
  | S_sort_name => Some (sort_by name_le docs)
  | S_skip n => Some (drop (Z.to_nat n) docs)
  | S_limit n => Some (take (Z.to_nat n) docs)
  end.

Fixpoint run_pipeline (images : list Image.t) (pipeline : list stage)
    (docs : list Doc.t) : option (list Doc.t) :=
  match pipeline with
  | [] => Some docs
  | st :: rest =>
      match run_stage images st docs with
      | Some docs' => run_pipeline images rest docs'
      | None => None
      end
  end.

End Pipeline.

(** ** Aggregation over the images collection (statistics) *)

Inductive image_stage :=
| IS_match_created_at (gte lte : datetime)  (* $match created_at: $gte, $lte *)
| IS_group_status.                          (* $group by status, sum 1 *)

Inductive image_doc :=
| ID_image (i : Image.t)
| ID_count (_id : string) (count : Z).

Fixpoint bump (s : string) (counts : list (string * Z)) : list (string * Z) :=
  match counts with
  | [] => [(s, 1)]
  | (k, c) :: rest => if decide (k = s) then (k, c + 1) :: rest else (k, c) :: bump s rest
  end.

Definition image_of (d : image_doc) : option Image.t :=
  match d with
  | ID_image i => Some i
  | ID_count _ _ => None
  end.

Definition created_between (gte lte : datetime) (d : image_doc) : bool :=
  match d with
  | ID_image i => bool_decide (gte ≤ Image.created_at i) && bool_decide (Image.created_at i ≤ lte)
  | ID_count _ _ => false
  end.

Definition run_image_stage (st : image_stage) (docs : list image_doc)
    : option (list image_doc) :=
  match st with
  | IS_match_created_at gte lte =>
      Some (filter (λ d, created_between gte lte d = true) docs)
  | IS_group_status =>
      imgs ← mapM image_of docs;
      Some (uncurry ID_count <$> foldl (λ acc i, bump (Image.status i) acc) [] imgs)
  end.

Fixpoint run_image_pipeline (pipeline : list image_stage) (docs : list image_doc)
    : option (list image_doc) :=
  match pipeline with
  | [] => Some docs
  | st :: rest =>
      match run_image_stage st docs with
      | Some docs' => run_image_pipeline rest docs'
      | None => None
      end
  end.

(** ** The store's operations *)

Inductive exn :=
| OverflowError (msg : string)      (* bson: integer does not fit 8 bytes *)
| OperationFailure (msg : string)   (* the server rejected the command *)
| KeyError (key : string)
| NotModelled.                      (* outside the fragment of [run_stage] *)

Definition str_exn (e : exn) : string :=
  match e with
  | OverflowError msg => msg
  | OperationFailure msg => msg
  | KeyError key => "'" +:+ key +:+ "'"
  | NotModelled => ""
  end.

Inductive outcome (T : Type) :=
| Returned (t : T)
| Raised (e : exn).
Arguments Returned {T} t.
Arguments Raised {T} e.

Record UpdateResult := {
  matched_count : Z;
  modified_count : Z;
}.

Inductive store_op : Type → Type :=
| find_one_status (_id : ObjectId) : store_op (option string)
| update_one_status (_id : ObjectId) (status : string) (last_updated_at : datetime)
    : store_op UpdateResult
| aggregate_groups (pipeline : list stage) : store_op (list Doc.t)
| aggregate_images (pipeline : list image_stage) : store_op (list image_doc).

(** A handler: it answers, or calls the store and goes on with what the
    call returned or raised. *)
Inductive prog (R : Type) : Type :=
| Ret (r : R)
| Call {T : Type} (o : store_op T) (k : outcome T → prog R).
Arguments Ret {R} r.
Arguments Call {R T} o k.

Inductive event :=
| Issued {T : Type} (o : store_op T).

(** *** The reference store *)

Definition INT64_MAX : Z := 2 ^ 63 - 1.
Definition INT64_MIN : Z := - 2 ^ 63.

Definition fits_int64 (n : Z) : bool := (INT64_MIN <=? n) && (n <=? INT64_MAX).

(** Encoding the command: every number has to fit 8 bytes. *)
Definition encodable (st : stage) : bool :=
  match st with
  | S_skip n => fits_int64 n
  | S_limit n => fits_int64 n
  | _ => true
  end.

(** Parsing the pipeline on the server: [$skip] takes a non-negative
    number, [$limit] a positive one.  (The wording of the two messages
    is the one of the server versions of the time of the sources.) *)
Definition stage_error (st : stage) : option exn :=
  match st with
  | S_skip n =>
      if n <? 0 then Some (OperationFailure "Argument to $skip cannot be negative")
      else None
  | S_limit n =>
      if n <=? 0 then Some (OperationFailure "the limit must be positive")
      else None
  | _ => None
  end.

Fixpoint pipeline_error (pipeline : list stage) : option exn :=
  match pipeline with
  | [] => None
  | st :: rest =>
      match stage_error st with
      | Some e => Some e
      | None => pipeline_error rest
      end
  end.

(** [$set: {status, last_updated_at}] on one image. *)
Definition with_status (new_status : string) (now : datetime) (i : Image.t) : Image.t :=
  Image.mk (Image._id i) (Image.group_id i) new_status (Image.created_at i) now
    (Image.url i).

(** [update_one({'_id': id}, {'$set': ...})]: the first image with that
    identifier is rewritten; it counts as modified when a field changed. *)
Fixpoint update_first (id : ObjectId) (new_status : string) (now : datetime)
    (images : list Image.t) : list Image.t * UpdateResult :=
  match images with
  | [] => ([], {| matched_count := 0; modified_count := 0 |})
  | i :: rest =>
      if decide (Image._id i = id) then
        (with_status new_status now i :: rest,
         {| matched_count := 1;
            modified_count :=
              if decide (Image.status i = new_status ∧ Image.last_updated_at i = now)
              then 0 else 1 |})
      else
        let '(rest', r) := update_first id new_status now rest in
        (i :: rest', r)
  end.

(** [find_one({'_id': id}, {'status': 1})], then ['status'] of what was
    found. *)
Definition current_status (s : Store) (id : ObjectId) : option string :=
  Image.status <$> (snd <$> list_find (λ i, Image._id i = id) (images_collection s)).

Section Exec.
Context `{StoreSort}.

Definition exec {T : Type} (o : store_op T) (s : Store) : outcome T * Store :=
  match o in store_op T return outcome T * Store with
  | find_one_status id =>
      (Returned (current_status s id), s)
  | update_one_status id new_status now =>
      let '(images, r) := update_first id new_status now (images_collection s) in
      (Returned r, {| groups_collection := groups_collection s; images_collection := images |})
  | aggregate_groups pipeline =>
      if negb (forallb encodable pipeline) then
        (Raised (OverflowError "MongoDB can only handle up to 8-byte ints"), s)
      else
        match pipeline_error pipeline with
        | Some e => (Raised e, s)
        | None =>
            match run_pipeline (images_collection s) pipeline
                    (of_group <$> groups_collection s) with
            | Some docs => (Returned docs, s)
            | None => (Raised NotModelled, s)
            end
        end
  | aggregate_images pipeline =>
      match run_image_pipeline pipeline (ID_image <$> images_collection s) with
      | Some docs => (Returned docs, s)
      | None => (Raised NotModelled, s)
      end
  end.

(** Running a handler: the answer, the store afterwards, and the
    operations issued, in order. *)
Fixpoint run {R : Type} (p : prog R) (s : Store) : R * Store * list event :=
  match p with
  | Ret r => (r, s, [])
  | Call o k =>
      let '(res, s1) := exec o s in
      let '(r, s2, tr) := run (k res) s1 in
      (r, s2, Issued o :: tr)
  end.

End Exec.

(** ** Configuration and responses *)

(** Modelled from the spec: [config/config.py] is not part of the sources.
    The data model of the design document gives the statuses as
    new, review, accepted, deleted, and the handler's docstring prints the
    same list in its "Invalid status" example. *)
Definition VALID_STATUSES : list string := ["new"; "review"; "accepted"; "deleted"].

(** [repr] of a list of strings that hold no quote, no backslash and no
    control character, which is the case of [VALID_STATUSES]. *)
Fixpoint join (sep : string) (l : list string) : string :=
  match l with
  | [] => ""
  | [x] => x
  | x :: rest => x +:+ sep +:+ join sep rest
  end.

Definition repr_list (l : list string) : string :=
  "[" +:+ join ", " ((λ s, "'" +:+ s +:+ "'") <$> l) +:+ "]".

Inductive body :=
| Envelope (code : Z) (name description : string)
| Message (message : string)
| GroupList (groups : list Doc.t)
| Counts (statistics : gmap string Z).

(** What the client gets: the pair [jsonify(...), status] a handler
    returns, or the framework's answer to an exception no handler caught. *)
Inductive reply :=
| Response (b : body) (status_code : Z)
| Unhandled (e : exn).

(** Modelled from the spec: [utils.utils.sanitize_json] is not part of the
    sources; the design document treats it as an opaque serialization helper
    that turns identifiers and dates into JSON-safe values and keeps the
    structure of what it is given. *)
Definition sanitize_json {A : Type} (x : A) : A := x.

(** The value of [data.get('status')] in the request's JSON. *)
Inductive jvalue :=
| JStr (s : string)
| JOther.

(** [list.insert(i, x)] for [0 <= i]. *)
Definition list_insert_at {A : Type} (i : nat) (x : A) (l : list A) : list A :=
  take i l ++ x :: drop i l.

Definition invalid_status : reply :=
  Response
    (Envelope 400 "Invalid status" ("Valid statuses are - " +:+ repr_list VALID_STATUSES))
    400.

(** The comprehension [{item['_id']: item['count'] for item in items}]. *)
Fixpoint dict_of_items (items : list image_doc) (d : gmap string Z)
    : exn + gmap string Z :=
  match items with
  | [] => inr d
  | ID_count k c :: rest => dict_of_items rest (<[k := c]> d)
  | ID_image _ :: _ => inl (KeyError "count")
  end.

Definition MS_PER_DAY : Z := 86400000.

(** ** The handlers *)

(** The last two lines of [get_groups_with_images]: run the pipeline and
    answer with the groups; nothing catches what the store raises. *)
Definition aggregate_and_respond (pipeline : list stage) : prog reply :=
  Call (aggregate_groups pipeline) (λ r,
    match r with
    | Returned groups => Ret (Response (GroupList (sanitize_json groups)) 200)
    | Raised e => Ret (Unhandled e)
    end).

Definition invalid_query (err : ValueError) : reply :=
  Response (Envelope 400 "Invalid values of query parameters" (str_ValueError err)) 400.

(** The two numbers of [config.config], which is not part of the
    sources, are parameters of the handlers. *)
Section Handlers.
Variable STATISTIC_NUMBER_OF_DAYS : Z.
Variable DEFAULT_PAGINATION_NUMBER_OF_GROUPS_TO_RETURN : Z.

(** [GET /groups] *)
Definition get_groups_with_images (args : list (string * string)) : prog reply :=
  let status_filter := args_get "status" args in
  let groups_per_page := PInt DEFAULT_PAGINATION_NUMBER_OF_GROUPS_TO_RETURN in
  let groups_per_page := py_or (args_get "groups_per_page" args) groups_per_page in
  let page_to_return := args_get "page" args in
  let pipeline :=
    [S_lookup; S_unwind; S_sort_last_updated; S_group; S_sort_name] in
  match
    (* if status_filter and escape(status_filter) in VALID_STATUSES *)
    match status_filter with
    | Some status =>
        if truthy status_filter && bool_decide (escape status ∈ VALID_STATUSES) then
          inr (list_insert_at 2 (S_match status) pipeline)
        else if truthy status_filter then inl invalid_status
        else inr pipeline
    | None => inr pipeline
    end
  with
  | inl response => Ret response
  | inr pipeline =>
      (* if page_to_return *)
      match page_to_return with
      | Some page =>
          if truthy page_to_return then
            match
              p ← int_escape (PStr page);
              n ← int_escape groups_per_page;
              let skip := p * n in
              limit ← int_escape groups_per_page;
              mret (skip, limit)
            with
            | inl err => Ret (invalid_query err)
            | inr (skip, limit) =>
                aggregate_and_respond (pipeline ++ [S_skip skip; S_limit limit])
            end
          else aggregate_and_respond pipeline
      | None => aggregate_and_respond pipeline
      end
  end.

(** [PUT /images/<image_id>], for a request whose JSON body is an object;
    [now] is what [datetime.utcnow()] returns. *)
Definition update_image_status (now : datetime) (image_id : string)
    (new_status : jvalue) : prog reply :=
  let failed (err : exn) : reply :=
    Response (Envelope 500 "MongoDB exeption occured" (str_exn err)) 500 in
  match ObjectId_of image_id with
  | inl err =>
      Ret (Response (Envelope 400 "Invalid ObjectId" (str_InvalidId err)) 400)
  | inr image_id =>
      match new_status with
      | JStr new_status =>
          if bool_decide (new_status ∉ VALID_STATUSES) then Ret invalid_status
          else
            Call (find_one_status image_id) (λ r,
              match r with
              | Raised err => Ret (failed err)
              | Returned current_status =>
                  if bool_decide (Some new_status ≠ current_status) then
                    Call (update_one_status image_id new_status now) (λ r,
                      match r with
                      | Raised err => Ret (failed err)
                      | Returned result =>
                          if bool_decide (modified_count result ≠ 0) then
                            Ret (Response (Message "Image status updated") 200)
                          else
                            Ret (Response
                                   (Envelope 400 "Image not found"
                                      "Specified ID was not found in database") 400)
                      end)
                  else
                    Ret (Response (Message "Requested status is the same as current") 200)
              end)
      | JOther => Ret invalid_status
      end
  end.

(** [GET /statistics]; the request's parameters are not read. *)
Definition get_statistics (now : datetime) (args : list (string * string))
    : prog reply :=
  let days := STATISTIC_NUMBER_OF_DAYS in
  let end_date := now in
  let start_date := end_date - days * MS_PER_DAY in
  let pipeline := [IS_match_created_at start_date end_date; IS_group_status] in
  Call (aggregate_images pipeline) (λ r,
    match r with
    | Raised e => Ret (Unhandled e)
    | Returned items =>
        match dict_of_items items ∅ with
        | inr statistics => Ret (Response (Counts (sanitize_json statistics)) 200)
        | inl e => Ret (Unhandled e)
        end
    end).

End Handlers.

(** * The vocabulary of the properties *)

(** ** [$group] *)

Definition row_image (d : Doc.t) : option Image.t :=
  match Doc.images d with
  | ImageOne i => Some i
  | _ => None
  end.

(** The images of the rows that carry the identifier [id], in order. *)
Definition images_with_id (id : ObjectId) (rows : list Doc.t) : list Image.t :=
  omap (λ d, if decide (Doc._id d = id) then row_image d else None) rows.

#[global] Instance images_with_id_Permutation id :
  Proper ((≡ₚ) ==> (≡ₚ)) (images_with_id id).
Proof. intros l1 l2 Hl. unfold images_with_id. by apply omap_Permutation. Qed.

Definition acc_ok (rows : list Doc.t) (a : group_acc) : Prop :=
  acc_push a = images_with_id (acc_id a) rows
  ∧ acc_sum a = Z.of_nat (length (acc_push a))
  ∧ acc_push a ≠ []
  ∧ ∃ r, r ∈ rows ∧ Doc._id r = acc_id a ∧ Doc.name r = acc_first a.

Definition group_ok (rows : list Doc.t) (d : Doc.t) : Prop :=
  ∃ imgs,
    Doc.images d = ImageArr imgs
    ∧ imgs = images_with_id (Doc._id d) rows
    ∧ Doc.count d = Some (Z.of_nat (length imgs))
    ∧ imgs ≠ []
    ∧ ∃ r, r ∈ rows ∧ Doc._id r = Doc._id d ∧ Doc.name r = Doc.name d.

(** ** The pipeline of [GET /groups] *)

Definition row (g : Group.t) (i : Image.t) : Doc.t :=
  Doc.mk (Group._id g) (Group.name g) (ImageOne i) None.

(** What [$lookup] and [$unwind] leave: one row per group and image of
    the group. *)
Definition rows_of (images : list Image.t) (groups : list Group.t) : list Doc.t :=
  groups ≫= λ g, row g <$> filter (λ i, Image.group_id i = Group._id g) images.

Definition joined_rows (s : Store) : list Doc.t :=
  rows_of (images_collection s) (groups_collection s).

Definition filter_rows (status_filter : option string) (rows : list Doc.t) : list Doc.t :=
  match status_filter with
  | Some st => filter (λ d, match_status st d = true) rows
  | None => rows
  end.

Definition pipeline_of (status_filter : option string) : list stage :=
  match status_filter with
  | Some st => [S_lookup; S_unwind; S_match st; S_sort_last_updated; S_group; S_sort_name]
  | None => [S_lookup; S_unwind; S_sort_last_updated; S_group; S_sort_name]
  end.

Section Listing.
Context `{StoreSort}.

Definition sorted_rows (status_filter : option string) (s : Store) : list Doc.t :=
  sort_by newer_first (filter_rows status_filter (joined_rows s)).

(** The unpaginated answer. *)
Definition listing (status_filter : option string) (s : Store) : list Doc.t :=
  sort_by name_le (group_by_id (sorted_rows status_filter s)).

End Listing.

(** ** The shape of [get_groups_with_images] *)

(** The request carries a status the handler refuses. *)
Definition status_rejected (args : list (string * string)) : bool :=
  match args_get "status" args with
  | Some st => truthy (Some st) && negb (bool_decide (escape st ∈ VALID_STATUSES))
  | None => false
  end.

(** The status the [$match] stage is built with, if one is. *)
Definition effective_filter (args : list (string * string)) : option string :=
  match args_get "status" args with
  | Some st =>
      if truthy (Some st) && bool_decide (escape st ∈ VALID_STATUSES) then Some st
      else None
  | None => None
  end.

(** [skip] and [limit], when the request asks for a page. *)
Definition page_window (default : Z) (args : list (string * string))
    : option (ValueError + Z * Z) :=
  let groups_per_page := py_or (args_get "groups_per_page" args) (PInt default) in
  match args_get "page" args with
  | Some page =>
      if truthy (Some page) then
        Some (match int_escape (PStr page) with
              | inl err => inl err
              | inr p =>
                  match int_escape groups_per_page with
                  | inl err => inl err
                  | inr n => inr (p * n, n)
                  end
              end)
      else None
  | None => None
  end.

Fixpoint no_amp (s : string) : bool :=
  match s with
  | EmptyString => true
  | String c rest => negb (Ascii.eqb c "&"%char) && no_amp rest
  end.

Definition page_of (skip limit : Z) (groups : list Doc.t) : list Doc.t :=
  take (Z.to_nat limit) (drop (Z.to_nat skip) groups).

Section PageReply.
Context `{StoreSort}.

(** What a paginated request gets, whatever [skip] and [limit] are. *)
Definition page_reply (m : option string) (skip limit : Z) (s : Store) : reply :=
  if negb (fits_int64 skip && fits_int64 limit) then
    Unhandled (OverflowError "MongoDB can only handle up to 8-byte ints")
  else if skip <? 0 then
    Unhandled (OperationFailure "Argument to $skip cannot be negative")
  else if limit <=? 0 then
    Unhandled (OperationFailure "the limit must be positive")
  else Response (GroupList (page_of skip limit (listing m s))) 200.

End PageReply.

(** ** What the listing holds *)

(** Does the image pass the effective filter? *)
Definition keeps (m : option string) (i : Image.t) : bool :=
  match m with
  | Some st => bool_decide (Image.status i = st)
  | None => true
  end.

(** The images of group [id] that pass the filter, in the collection's
    order. *)
Definition images_of (s : Store) (m : option string) (id : ObjectId) : list Image.t :=
  filter (λ i, Image.group_id i = id ∧ keeps m i = true) (images_collection s).

Definition newer (i j : Image.t) : Prop :=
  Image.last_updated_at j ≤ Image.last_updated_at i.

Definition args_remove (key : string) (args : list (string * string))
    : list (string * string) :=
  filter (λ kv, kv.1 ≠ key) args.


(** The number of images of [images] with status [st]. *)
Definition count_status (st : string) (images : list Image.t) : nat :=
  length (filter (λ i, Image.status i = st) images).

Definition count_images (images : list Image.t) : list (string * Z) :=
  foldl (λ acc i, bump (Image.status i) acc) [] images.

Definition in_window (days : Z) (now : datetime) (i : Image.t) : Prop :=
  now - days * MS_PER_DAY ≤ Image.created_at i ∧ Image.created_at i ≤ now.

#[global] Instance in_window_dec days now i : Decision (in_window days now i).
Proof. unfold in_window. apply _. Defined.

(** ** A sample store *)

Definition oid_of_N (n : N) : ObjectId :=
  [x65; x07; x1d; x2d; x96; xb5; x2d; xe4; x51; xf9; x14; byte_of_ascii (ascii_of_N n)].

Definition sample_image (n g : N) (st : string) (created updated : Z) : Image.t :=
  Image.mk (oid_of_N n) (oid_of_N g) st created updated "https://images_service.com/i.png".

(** Three groups, the third without image; five images. *)
Definition sample_store : Store := {|
  groups_collection :=
    [Group.mk (oid_of_N 1) "Group 1"; Group.mk (oid_of_N 0) "Group 0";
     Group.mk (oid_of_N 2) "Group 2"];
  images_collection :=
    [sample_image 10 0 "new" 5 7; sample_image 11 1 "new" 5 9;
     sample_image 12 0 "review" 6 8; sample_image 13 1 "accepted" 6 3;
     sample_image 14 0 "new" 1 20];
|}.

Definition page_request : list (string * string) :=
  [("status", "new"); ("page", "0"); ("groups_per_page", "1")].

Definition sample_image_id : string := "65071d2d96b52de451f9140a".

(** * Further vocabulary *)

(** A handler against any store: the operations it issues and its answer,
    whatever each call returns or raises. *)
Fixpoint answers {R : Type} (p : prog R) (tr : list event) (r : R) : Prop :=
  match p with
  | Ret r' => tr = [] ∧ r = r'
  | Call o k => ∃ res tr', tr = Issued o :: tr' ∧ answers (k res) tr' r
  end.

(** The answer of [update_image_status] to an exception of the store. *)
Definition store_failure (err : exn) : reply :=
  Response (Envelope 500 "MongoDB exeption occured" (str_exn err)) 500.



(** The three parameters [get_groups_with_images] reads. *)
Definition GROUPS_PARAMETERS : list string := ["status"; "page"; "groups_per_page"].

(** The sum of the counts of a statistics object. *)
Definition total (statistics : gmap string Z) : Z :=
  map_fold (λ _ count acc, count + acc) 0 statistics.

(** The counts of the images created in the window, as the comprehension
    of [get_statistics] collects them. *)
Definition statistics_of (days : Z) (now : datetime) (s : Store) : gmap string Z :=
  list_to_map (reverse (count_images (filter (in_window days now) (images_collection s)))).



(** * Properties *)

(** ** The Python helpers on examples *)

Example escape_ex : escape "a<b&c" = "a&lt;b&amp;c".
Proof. reflexivity. Qed.
Example int_ex1 : int_literal " -12_3 " = Some (-123).
Proof. reflexivity. Qed.
Example int_ex2 : int_literal "1__2" = None.
Proof. reflexivity. Qed.
Example int_ex3 : int_literal "" = None.
Proof. reflexivity. Qed.
Example int_ex4 : int_literal "+007" = Some 7.
Proof. reflexivity. Qed.
Example int_ex5 : int_literal "- 1" = None.
Proof. reflexivity. Qed.
Example int_ex6 : int_literal "12_" = None.
Proof. reflexivity. Qed.
Example int_ex7 : int_literal "1_000_000" = Some 1000000.
Proof. reflexivity. Qed.
Example int_ex8 : int_literal "5 _" = None.
Proof. reflexivity. Qed.
Example int_ex9 : int_literal "--1" = None.
Proof. reflexivity. Qed.
Example int_ex10 : int_literal "-0" = Some 0.
Proof. reflexivity. Qed.
Example int_ex11 : int_literal "0x10" = None.
Proof. reflexivity. Qed.
Example str_ValueError_ex :
  str_ValueError (InvalidLiteral "ten")
  = "invalid literal for int() with base 10: Markup('ten')".
Proof. reflexivity. Qed.
Example oid_ex :
  ObjectId_of "65071d2d96b52de451f914c0"
  = inr [x65; x07; x1d; x2d; x96; xb5; x2d; xe4; x51; xf9; x14; xc0].
Proof. reflexivity. Qed.
Example oid_ex_short : ObjectId_of "65071d2d" = inl (InvalidIdOf "65071d2d").
Proof. reflexivity. Qed.

(** ** [$group] *)

Lemma is_row_image d : is_row d = true ↔ is_Some (row_image d).
Proof.
  unfold is_row, row_image. destruct (Doc.images d); split; intros Hd;
    try done; try (by eexists); by destruct Hd.
Qed.

Lemma images_with_id_snoc id rows r :
  images_with_id id (rows ++ [r])
  = images_with_id id rows
    ++ (if decide (Doc._id r = id) then option_list (row_image r) else []).
Proof.
  unfold images_with_id. rewrite omap_app. f_equal. simpl.
  destruct (decide _); [destruct (row_image r)|]; done.
Qed.

Lemma images_with_id_elem id rows i :
  i ∈ images_with_id id rows
  ↔ ∃ r, r ∈ rows ∧ Doc._id r = id ∧ Doc.images r = ImageOne i.
Proof.
  unfold images_with_id. rewrite list_elem_of_omap. split.
  - intros (r & Hr & Hi). exists r. destruct (decide _); [|done].
    unfold row_image in Hi. destruct (Doc.images r); naive_solver.
  - intros (r & Hr & Hid & Hi). exists r. split; [done|].
    rewrite decide_True by done. unfold row_image. by rewrite Hi.
Qed.

Lemma accumulate_split id nm img accs :
  ((id ∉ (acc_id <$> accs))
   ∧ accumulate id nm img accs
     = accs ++ [{| acc_id := id; acc_first := nm; acc_push := [img]; acc_sum := 1 |}])
  ∨ (∃ l1 a l2, accs = l1 ++ a :: l2 ∧ acc_id a = id
       ∧ accumulate id nm img accs
         = l1 ++ {| acc_id := acc_id a; acc_first := acc_first a;
                    acc_push := acc_push a ++ [img]; acc_sum := acc_sum a + 1 |} :: l2).
Proof.
  induction accs as [|a accs IH]; simpl.
  - left. split; [apply not_elem_of_nil|done].
  - destruct (decide (acc_id a = id)) as [Heq|Hne].
    + right. by exists [], a, accs.
    + destruct IH as [[Hnot ->]|(l1 & b & l2 & -> & Hb & ->)].
      * left. split; [|done]. rewrite not_elem_of_cons. split; [congruence|done].
      * right. by exists (a :: l1), b, l2.
Qed.

Lemma acc_ok_snoc_other rows r a :
  acc_ok rows a → Doc._id r ≠ acc_id a ∨ row_image r = None →
  acc_ok (rows ++ [r]) a.
Proof.
  intros (Hp & Hs & Hne & r0 & Hr0 & Hid & Hnm) Hor. split_and!; try done.
  - rewrite images_with_id_snoc, Hp.
    destruct (decide _) as [Heq|Hneq]; [|by rewrite app_nil_r].
    destruct Hor as [Hor| ->]; [done|by rewrite app_nil_r].
  - exists r0. split_and!; try done. apply elem_of_app. by left.
Qed.

Lemma group_fold_spec rows :
  let accs := foldl group_step [] rows in
  NoDup (acc_id <$> accs)
  ∧ Forall (acc_ok rows) accs
  ∧ ∀ r, r ∈ rows → is_row r = true → Doc._id r ∈ acc_id <$> accs.
Proof.
  cbv zeta. induction rows as [|r rows IH] using rev_ind.
  { simpl. split_and!; [constructor|constructor|]. intros r Hr. by apply elem_of_nil in Hr. }
  rewrite foldl_app. simpl. destruct IH as (Hnd & Hok & Hcov).
  set (accs := foldl group_step [] rows) in *.
  rewrite Forall_forall in Hok.
  unfold group_step. destruct (row_image r) as [i|] eqn:Himg; cycle 1.
  { assert (Doc.images r = NoImages ∨ ∃ l, Doc.images r = ImageArr l) as Hsh.
    { unfold row_image in Himg. destruct (Doc.images r); naive_solver. }
    assert (match Doc.images r with
            | ImageOne i => accumulate (Doc._id r) (Doc.name r) i accs
            | _ => accs end = accs) as ->.
    { destruct Hsh as [->|[l ->]]; done. }
    split_and!; [done| |].
    - apply Forall_forall. intros a Ha. apply acc_ok_snoc_other; auto.
    - intros r' [Hr'|Hr']%elem_of_app Hrow; [by apply Hcov|].
      apply list_elem_of_singleton in Hr'. subst r'.
      apply is_row_image in Hrow. rewrite Himg in Hrow. by destruct Hrow. }
  assert (Doc.images r = ImageOne i) as Hone.
  { unfold row_image in Himg. destruct (Doc.images r); naive_solver. }
  rewrite Hone.
  destruct (accumulate_split (Doc._id r) (Doc.name r) i accs)
    as [[Hnot ->]|(l1 & a & l2 & Haccs & Ha & ->)].
  - (* a new accumulator *)
    assert (images_with_id (Doc._id r) rows = []) as Hnone.
    { destruct (images_with_id (Doc._id r) rows) as [|x xs] eqn:Hx; [done|].
      assert (x ∈ images_with_id (Doc._id r) rows) as Hin by (rewrite Hx; left).
      apply images_with_id_elem in Hin as (r0 & Hr0 & Hid & Hi).
      exfalso. apply Hnot. rewrite <- Hid. apply Hcov; [done|].
      unfold is_row. by rewrite Hi. }
    split_and!.
    + rewrite fmap_app. simpl. apply NoDup_app. split_and!; [done| |apply NoDup_singleton].
      intros x Hx ->%list_elem_of_singleton. done.
    + apply Forall_app. split.
      * apply Forall_forall. intros a Ha. apply acc_ok_snoc_other; [auto|].
        left. intros Heq. apply Hnot. rewrite Heq. by apply list_elem_of_fmap_2.
      * apply Forall_singleton. split_and!; simpl; try done.
        -- rewrite images_with_id_snoc, Hnone, decide_True by done.
           by rewrite Himg.
        -- exists r. split_and!; try done. apply elem_of_app. right. left.
    + intros r' [Hr'|Hr']%elem_of_app Hrow.
      * rewrite fmap_app. apply elem_of_app. left. by apply Hcov.
      * apply list_elem_of_singleton in Hr'. subst r'.
        rewrite fmap_app. apply elem_of_app. right. left.
  - (* an accumulator for this identifier exists *)
    assert (Hids : acc_id <$> (l1 ++ {| acc_id := acc_id a; acc_first := acc_first a;
                       acc_push := acc_push a ++ [i]; acc_sum := acc_sum a + 1 |} :: l2)
                   = acc_id <$> accs).
    { rewrite Haccs, !fmap_app. done. }
    rewrite Hids. split_and!; [done| |].
    + rewrite Haccs in Hok, Hnd.
      rewrite fmap_app, fmap_cons in Hnd.
      apply NoDup_app in Hnd as (Hnd1 & Hdisj & Hnd2).
      apply NoDup_cons in Hnd2 as (Hnotin2 & Hnd2).
      apply Forall_app. split; [|apply Forall_cons; split].
      * apply Forall_forall. intros b Hb. apply acc_ok_snoc_other.
        { apply Hok. apply elem_of_app. by left. }
        left. intros Heq. apply (Hdisj (acc_id b)); [by apply list_elem_of_fmap_2|].
        rewrite <- Heq, <- Ha. left.
      * destruct (Hok a) as (Hp & Hs & Hne & r0 & Hr0 & Hid & Hnm).
        { apply elem_of_app. right. left. }
        split_and!; simpl.
        -- rewrite images_with_id_snoc, Hp, decide_True by done. by rewrite Himg.
        -- rewrite length_app. simpl. lia.
        -- by destruct (acc_push a).
        -- exists r0. split_and!; try done. apply elem_of_app. by left.
      * apply Forall_forall. intros b Hb. apply acc_ok_snoc_other.
        { apply Hok. apply elem_of_app. right. by right. }
        left. intros Heq. apply Hnotin2. rewrite Ha, Heq. by apply list_elem_of_fmap_2.
    + intros r' [Hr'|Hr']%elem_of_app Hrow; [by apply Hcov|].
      apply list_elem_of_singleton in Hr'. subst r'.
      rewrite Haccs, fmap_app, fmap_cons, Ha. apply elem_of_app. right. left.
Qed.

Lemma group_by_id_spec rows :
  NoDup (Doc._id <$> group_by_id rows)
  ∧ Forall (group_ok rows) (group_by_id rows)
  ∧ ∀ r, r ∈ rows → is_row r = true → Doc._id r ∈ Doc._id <$> group_by_id rows.
Proof.
  destruct (group_fold_spec rows) as (Hnd & Hok & Hcov).
  unfold group_by_id.
  assert (Hids : Doc._id <$> (group_result <$> foldl group_step [] rows)
                 = acc_id <$> foldl group_step [] rows).
  { rewrite <- list_fmap_compose. done. }
  rewrite Hids. split_and!; [done| |done].
  apply Forall_fmap. eapply Forall_impl; [exact Hok|].
  intros a (Hp & Hs & Hne & Hr). exists (acc_push a). simpl.
  split_and!; try done. by rewrite Hs.
Qed.

(** ** The pipeline of [GET /groups] *)

Lemma lookup_unwind (s : Store) :
  (lookup_images (images_collection s) <$> (of_group <$> groups_collection s))
    ≫= unwind_images
  = joined_rows s.
Proof.
  unfold joined_rows, rows_of. induction (groups_collection s) as [|g gs IH]; [done|].
  rewrite !fmap_cons, !bind_cons, IH. done.
Qed.

Lemma joined_rows_rows s : Forall (λ d, is_row d = true) (joined_rows s).
Proof.
  unfold joined_rows, rows_of. apply Forall_forall. intros d Hd.
  apply list_elem_of_bind in Hd as (g & Hd & Hg).
  apply list_elem_of_fmap in Hd as (i & -> & Hi). done.
Qed.

Lemma filter_rows_rows m rows :
  Forall (λ d, is_row d = true) rows → Forall (λ d, is_row d = true) (filter_rows m rows).
Proof.
  destruct m as [st|]; simpl; [|done]. rewrite !Forall_forall.
  intros Hrows d [_ Hd]%list_elem_of_filter. by apply Hrows.
Qed.

Lemma forallb_is_row rows :
  Forall (λ d, is_row d = true) rows → forallb is_row rows = true.
Proof.
  intros Hrows. apply Is_true_true, forallb_True.
  eapply Forall_impl; [exact Hrows|]. intros d Hd. by apply Is_true_true.
Qed.

Section ListingRun.
Context `{StoreSort}.

Lemma sorted_rows_rows m s : Forall (λ d, is_row d = true) (sorted_rows m s).
Proof.
  unfold sorted_rows. rewrite sort_by_Permutation.
  apply filter_rows_rows, joined_rows_rows.
Qed.

Lemma run_pipeline_app images p1 p2 docs :
  run_pipeline images (p1 ++ p2) docs
  = run_pipeline images p1 docs ≫= run_pipeline images p2.
Proof.
  revert docs. induction p1 as [|st p1 IH]; intros docs; simpl; [done|].
  destruct (run_stage images st docs); [apply IH|done].
Qed.

Lemma run_pipeline_of m s :
  run_pipeline (images_collection s) (pipeline_of m) (of_group <$> groups_collection s)
  = Some (listing m s).
Proof.
  unfold listing, sorted_rows.
  pose proof (filter_rows_rows m _ (joined_rows_rows s)) as Hrows.
  assert (Hsorted : Forall (λ d, is_row d = true)
                      (sort_by newer_first (filter_rows m (joined_rows s)))).
  { by rewrite sort_by_Permutation. }
  destruct m as [st|]; simpl; rewrite lookup_unwind; simpl in *;
    rewrite (forallb_is_row _ Hrows); simpl;
    rewrite (forallb_is_row _ Hsorted); done.
Qed.

End ListingRun.

Lemma get_groups_cases (default : Z) (args : list (string * string)) :
  get_groups_with_images default args
  = if status_rejected args then Ret invalid_status
    else
      match page_window default args with
      | None => aggregate_and_respond (pipeline_of (effective_filter args))
      | Some (inl err) => Ret (invalid_query err)
      | Some (inr (skip, limit)) =>
          aggregate_and_respond
            (pipeline_of (effective_filter args) ++ [S_skip skip; S_limit limit])
      end.
Proof.
  unfold get_groups_with_images, status_rejected, effective_filter, page_window.
  cbv zeta.
  set (groups_per_page := py_or (args_get "groups_per_page" args) (PInt default)).
  assert (Hpage : ∀ pipeline : list stage,
    match args_get "page" args with
    | Some page =>
        if truthy (args_get "page" args) then
          match
            p ← int_escape (PStr page);
            n ← int_escape groups_per_page;
            limit ← int_escape groups_per_page;
            mret (p * n, limit)
          with
          | inl err => Ret (invalid_query err)
          | inr (skip, limit) =>
              aggregate_and_respond (pipeline ++ [S_skip skip; S_limit limit])
          end
        else aggregate_and_respond pipeline
    | None => aggregate_and_respond pipeline
    end
    = match
        match args_get "page" args with
        | Some page =>
            if truthy (Some page) then
              Some (match int_escape (PStr page) with
                    | inl err => inl err
                    | inr p =>
                        match int_escape groups_per_page with
                        | inl err => inl err
                        | inr n => inr (p * n, n)
                        end
                    end)
            else None
        | None => None
        end
      with
      | None => aggregate_and_respond pipeline
      | Some (inl err) => Ret (invalid_query err)
      | Some (inr (skip, limit)) =>
          aggregate_and_respond (pipeline ++ [S_skip skip; S_limit limit])
      end).
  { intros pipeline. destruct (args_get "page" args) as [pg|]; [|done].
    destruct (truthy (Some pg)); [|done].
    destruct (int_escape (PStr pg)) as [err|p]; [done|].
    destruct (int_escape groups_per_page) as [err|n]; done. }
  destruct (args_get "status" args) as [st|];
    [|exact (Hpage (pipeline_of None))].
  destruct (truthy (Some st)); cbn [andb negb];
    [|exact (Hpage (pipeline_of None))].
  destruct (bool_decide (escape st ∈ VALID_STATUSES)); cbn [andb negb];
    [exact (Hpage (pipeline_of (Some st)))|done].
Qed.

(** ** [escape] on the configured statuses *)

Lemma escape_char_cases c :
  escape_char c = String c "" ∨ ∃ t, escape_char c = String "&"%char t.
Proof.
  unfold escape_char.
  destruct (Ascii.eqb c "&"%char); [right; by eexists|].
  destruct (Ascii.eqb c "<"%char); [right; by eexists|].
  destruct (Ascii.eqb c ">"%char); [right; by eexists|].
  destruct (Ascii.eqb c squote); [right; by eexists|].
  destruct (Ascii.eqb c dquote); [right; by eexists|].
  by left.
Qed.

(** A text without ampersand is the escaped form of itself only. *)
Lemma escape_no_amp s v : no_amp v = true → escape s = v → s = v.
Proof.
  revert v. induction s as [|c s IH]; intros v Hv Hs; simpl in Hs; [done|].
  destruct (escape_char_cases c) as [Hc|[t Hc]]; rewrite Hc in Hs; simpl in Hs.
  - destruct v as [|c' v]; [done|]. injection Hs as -> Hs.
    simpl in Hv. apply andb_prop in Hv as [_ Hv]. f_equal. by apply IH.
  - subst v. simpl in Hv. done.
Qed.

Lemma VALID_STATUSES_inv st :
  st ∈ VALID_STATUSES → st = "new" ∨ st = "review" ∨ st = "accepted" ∨ st = "deleted".
Proof. unfold VALID_STATUSES. rewrite !elem_of_cons, elem_of_nil. tauto. Qed.

Lemma escape_valid st : escape st ∈ VALID_STATUSES ↔ st ∈ VALID_STATUSES.
Proof.
  split; intros Hst.
  - assert (no_amp (escape st) = true) as Hamp.
    { apply VALID_STATUSES_inv in Hst as [->|[->|[->| ->]]]; done. }
    by rewrite <- (escape_no_amp st (escape st) Hamp eq_refl) in Hst.
  - apply VALID_STATUSES_inv in Hst as [->|[->|[->| ->]]];
      simpl; unfold VALID_STATUSES; set_solver.
Qed.

Lemma valid_truthy st : st ∈ VALID_STATUSES → truthy (Some st) = true.
Proof. intros [->|[->|[->| ->]]]%VALID_STATUSES_inv; done. Qed.

Lemma effective_filter_valid args st :
  args_get "status" args = Some st → st ∈ VALID_STATUSES →
  effective_filter args = Some st ∧ status_rejected args = false.
Proof.
  intros Hget Hst. unfold effective_filter, status_rejected. rewrite Hget.
  rewrite (valid_truthy st Hst).
  rewrite (bool_decide_eq_true_2 _ (proj2 (escape_valid st) Hst)). done.
Qed.

(** ** Running the pipeline of [GET /groups] on the reference store *)

Lemma encodable_pipeline_of m : forallb encodable (pipeline_of m) = true.
Proof. by destruct m. Qed.

Lemma pipeline_error_pipeline_of m : pipeline_error (pipeline_of m) = None.
Proof. by destruct m. Qed.

Lemma encodable_page m skip limit :
  forallb encodable (pipeline_of m ++ [S_skip skip; S_limit limit])
  = fits_int64 skip && fits_int64 limit.
Proof. destruct m; simpl; by rewrite andb_true_r. Qed.

Lemma pipeline_error_page m skip limit :
  pipeline_error (pipeline_of m ++ [S_skip skip; S_limit limit])
  = if skip <? 0 then Some (OperationFailure "Argument to $skip cannot be negative")
    else if limit <=? 0 then Some (OperationFailure "the limit must be positive")
    else None.
Proof. destruct m; simpl; destruct (skip <? 0), (limit <=? 0); done. Qed.

Lemma page_of_sublist skip limit groups : page_of skip limit groups `sublist_of` groups.
Proof.
  unfold page_of. etrans; [apply sublist_take|apply sublist_drop].
Qed.

Section GroupsRun.
Context `{StoreSort}.

Lemma run_respond_listing m s :
  run (aggregate_and_respond (pipeline_of m)) s
  = (Response (GroupList (listing m s)) 200, s,
     [Issued (aggregate_groups (pipeline_of m))]).
Proof.
  unfold aggregate_and_respond. cbn [run exec].
  rewrite encodable_pipeline_of, pipeline_error_pipeline_of, run_pipeline_of.
  done.
Qed.

Lemma run_respond_page m skip limit s :
  run (aggregate_and_respond (pipeline_of m ++ [S_skip skip; S_limit limit])) s
  = (page_reply m skip limit s, s,
     [Issued (aggregate_groups (pipeline_of m ++ [S_skip skip; S_limit limit]))]).
Proof.
  unfold aggregate_and_respond, page_reply. cbn [run exec].
  rewrite encodable_page, pipeline_error_page.
  destruct (fits_int64 skip && fits_int64 limit); [|done]. cbn [negb].
  destruct (skip <? 0); [done|]. destruct (limit <=? 0); [done|].
  rewrite run_pipeline_app, run_pipeline_of. done.
Qed.

(** Every answer of [GET /groups] with status 200 carries the listing for
    the effective filter, or a window of it; the store is left as it was. *)
Lemma get_groups_success default args s body s' tr :
  run (get_groups_with_images default args) s = (Response body 200, s', tr) →
  ∃ groups,
    body = GroupList groups ∧ s' = s
    ∧ groups `sublist_of` listing (effective_filter args) s
    ∧ (groups = listing (effective_filter args) s
       ∨ ∃ skip limit, groups = page_of skip limit (listing (effective_filter args) s)).
Proof.
  rewrite get_groups_cases.
  destruct (status_rejected args); [cbn [run]; unfold invalid_status; by intros [=]|].
  destruct (page_window default args) as [[err|[skip limit]]|].
  - cbn [run]. unfold invalid_query. by intros [=].
  - rewrite run_respond_page. unfold page_reply.
    destruct (negb _); [done|]. destruct (skip <? 0); [done|].
    destruct (limit <=? 0); [done|]. intros [= <- <- _]. eexists.
    split_and!; [done..|apply page_of_sublist|]. right. by exists skip, limit.
  - rewrite run_respond_listing. intros [= <- <- _]. eexists.
    split_and!; [done..|]. by left.
Qed.

End GroupsRun.

(** ** What the listing holds *)

Lemma StronglySorted_sublist {A} (R : relation A) (l1 l2 : list A) :
  l1 `sublist_of` l2 → StronglySorted R l2 → StronglySorted R l1.
Proof.
  induction 1 as [|x l1 l2 Hsub IH|x l1 l2 Hsub IH]; intros Hs.
  - constructor.
  - apply StronglySorted_inv in Hs as [Hs Hall]. constructor; [by apply IH|].
    rewrite Forall_forall in Hall |- *. intros y Hy. apply Hall.
    by eapply elem_of_sublist.
  - apply StronglySorted_inv in Hs as [Hs _]. by apply IH.
Qed.

Lemma images_with_id_cons id r rows :
  images_with_id id (r :: rows)
  = option_list (if decide (Doc._id r = id) then row_image r else None)
    ++ images_with_id id rows.
Proof.
  unfold images_with_id. simpl.
  destruct (decide _); [destruct (row_image r)|]; done.
Qed.

Lemma images_with_id_app id rows1 rows2 :
  images_with_id id (rows1 ++ rows2)
  = images_with_id id rows1 ++ images_with_id id rows2.
Proof. unfold images_with_id. apply omap_app. Qed.

Lemma images_with_id_block id g (l : list Image.t) :
  images_with_id id (row g <$> l) = if decide (Group._id g = id) then l else [].
Proof.
  induction l as [|i l IH]; [by destruct (decide _)|].
  rewrite fmap_cons, images_with_id_cons, IH. simpl.
  destruct (decide _); done.
Qed.

Lemma images_with_id_rows_of_None images groups id :
  id ∉ (Group._id <$> groups) → images_with_id id (rows_of images groups) = [].
Proof.
  unfold rows_of. induction groups as [|g gs IH]; [done|].
  rewrite fmap_cons, not_elem_of_cons. intros [Hne Hnot].
  rewrite bind_cons, images_with_id_app, images_with_id_block.
  rewrite decide_False by done. simpl. by apply IH.
Qed.

Lemma images_with_id_rows_of images groups g :
  NoDup (Group._id <$> groups) → g ∈ groups →
  images_with_id (Group._id g) (rows_of images groups)
  = filter (λ i, Image.group_id i = Group._id g) images.
Proof.
  induction groups as [|g0 gs IH]; intros Hnd Hg.
  { by apply elem_of_nil in Hg. }
  rewrite fmap_cons in Hnd. apply NoDup_cons in Hnd as [Hnot Hnd].
  unfold rows_of. rewrite bind_cons, images_with_id_app, images_with_id_block.
  fold (rows_of images gs).
  apply elem_of_cons in Hg as [->|Hg].
  - rewrite decide_True by done.
    rewrite images_with_id_rows_of_None by done. by rewrite app_nil_r.
  - rewrite decide_False.
    + simpl. by apply IH.
    + intros Heq. apply Hnot. rewrite Heq. by apply list_elem_of_fmap_2.
Qed.

Lemma images_with_id_filter_rows m id rows :
  images_with_id id (filter_rows m rows)
  = filter (λ i, keeps m i = true) (images_with_id id rows).
Proof.
  destruct m as [st|]; simpl.
  - induction rows as [|r rows IH]; [done|].
    rewrite filter_cons, images_with_id_cons, filter_app, <- IH.
    destruct (decide (match_status st r = true)) as [Hm|Hm].
    + rewrite images_with_id_cons. f_equal.
      destruct (decide (Doc._id r = id)); [|done].
      unfold row_image, match_status in *. destruct (Doc.images r); try done.
      simpl. rewrite filter_cons, decide_True by done. done.
    + replace (filter _ (option_list _)) with (@nil Image.t); [done|].
      destruct (decide (Doc._id r = id)); [|done].
      unfold row_image, match_status in *. destruct (Doc.images r); try done.
      simpl. rewrite filter_cons, decide_False by done. done.
  - induction (images_with_id id rows) as [|i l IH]; [done|].
    rewrite filter_cons, decide_True by done. by rewrite <- IH.
Qed.

Lemma images_with_id_sorted id rows :
  StronglySorted newer_first rows → StronglySorted newer (images_with_id id rows).
Proof.
  induction 1 as [|r rows Hs IH Hall]; [constructor|].
  rewrite images_with_id_cons.
  destruct (decide (Doc._id r = id)) as [Hid|]; [|done].
  destruct (row_image r) as [i|] eqn:Hi; [|done]. simpl.
  constructor; [done|]. apply Forall_forall. intros j Hj.
  apply images_with_id_elem in Hj as (r' & Hr' & _ & Hj).
  rewrite Forall_forall in Hall. specialize (Hall r' Hr').
  unfold newer_first, row_updated_at, row_image in *.
  rewrite Hj in Hall. destruct (Doc.images r); naive_solver.
Qed.

Lemma joined_rows_elem s r :
  r ∈ joined_rows s
  ↔ ∃ g i, g ∈ groups_collection s ∧ i ∈ images_collection s
           ∧ Image.group_id i = Group._id g ∧ r = row g i.
Proof.
  unfold joined_rows, rows_of. rewrite list_elem_of_bind. split.
  - intros (g & Hr & Hg). apply list_elem_of_fmap in Hr as (i & -> & Hi).
    apply list_elem_of_filter in Hi as [Hgi Hi]. by exists g, i.
  - intros (g & i & Hg & Hi & Hgi & ->). exists g. split; [|done].
    apply list_elem_of_fmap_2. by apply list_elem_of_filter.
Qed.

Lemma filter_rows_elem m rows g i :
  row g i ∈ filter_rows m rows ↔ row g i ∈ rows ∧ keeps m i = true.
Proof.
  destruct m as [st|]; simpl; [|tauto].
  rewrite list_elem_of_filter. unfold match_status. simpl. tauto.
Qed.

Section ListingSpec.
Context `{StoreSort}.

Lemma sorted_rows_sorted m s : StronglySorted newer_first (sorted_rows m s).
Proof. unfold sorted_rows. apply sort_by_StronglySorted; apply _. Qed.

Lemma sorted_rows_elem m s r :
  r ∈ sorted_rows m s
  ↔ ∃ g i, g ∈ groups_collection s ∧ i ∈ images_collection s
           ∧ Image.group_id i = Group._id g ∧ keeps m i = true ∧ r = row g i.
Proof.
  unfold sorted_rows. rewrite sort_by_Permutation. split.
  - intros Hr.
    assert (r ∈ joined_rows s) as Hj.
    { destruct m as [st|]; simpl in Hr; [|done].
      by apply list_elem_of_filter in Hr as [_ Hr]. }
    apply joined_rows_elem in Hj as (g & i & Hg & Hi & Hgi & ->).
    apply filter_rows_elem in Hr as [_ Hk]. by exists g, i.
  - intros (g & i & Hg & Hi & Hgi & Hk & ->).
    apply filter_rows_elem. split; [|done].
    apply joined_rows_elem. by exists g, i.
Qed.

Lemma listing_NoDup m s : NoDup (Doc._id <$> listing m s).
Proof.
  unfold listing. rewrite sort_by_Permutation.
  apply (group_by_id_spec (sorted_rows m s)).
Qed.

Lemma listing_sorted m s : StronglySorted name_le (listing m s).
Proof. unfold listing. apply sort_by_StronglySorted; apply _. Qed.

(** Each group of the listing: a stored group, with the images of that
    group that pass the filter, newest first, and their number. *)
Lemma listing_elem m s d :
  d ∈ listing m s →
  ∃ g imgs,
    g ∈ groups_collection s
    ∧ Doc._id d = Group._id g ∧ Doc.name d = Group.name g
    ∧ Doc.images d = ImageArr imgs
    ∧ Doc.count d = Some (Z.of_nat (length imgs))
    ∧ imgs ≠ []
    ∧ StronglySorted newer imgs
    ∧ (∀ i, i ∈ imgs → i ∈ images_of s m (Doc._id d))
    ∧ (NoDup (Group._id <$> groups_collection s) →
       imgs ≡ₚ images_of s m (Doc._id d)).
Proof.
  unfold listing. rewrite sort_by_Permutation. intros Hd.
  destruct (group_by_id_spec (sorted_rows m s)) as (_ & Hok & _).
  rewrite Forall_forall in Hok.
  destruct (Hok d Hd) as (imgs & Himgs & Heq & Hcount & Hne & r & Hr & Hid & Hname).
  apply sorted_rows_elem in Hr as (g & i0 & Hg & Hi0 & Hgi0 & Hk0 & ->).
  simpl in Hid, Hname. exists g, imgs. split_and!; try done.
  - rewrite Heq. apply images_with_id_sorted, sorted_rows_sorted.
  - intros i Hi. rewrite Heq in Hi.
    apply images_with_id_elem in Hi as (r & Hr & Hrid & Hri).
    apply sorted_rows_elem in Hr as (g' & i' & Hg' & Hi' & Hgi' & Hk' & ->).
    simpl in Hrid, Hri. injection Hri as ->.
    apply list_elem_of_filter. split_and!; try done. congruence.
  - intros Hnd. rewrite Heq. unfold sorted_rows.
    rewrite sort_by_Permutation, images_with_id_filter_rows.
    unfold joined_rows. rewrite <- Hid.
    rewrite images_with_id_rows_of by done.
    unfold images_of. rewrite list_filter_filter.
    apply reflexive_eq, list_filter_iff. intros i. rewrite Hid. tauto.
Qed.

Lemma listing_cover m s g i :
  g ∈ groups_collection s → i ∈ images_collection s →
  Image.group_id i = Group._id g → keeps m i = true →
  ∃ d, d ∈ listing m s ∧ Doc._id d = Group._id g.
Proof.
  intros Hg Hi Hgi Hk.
  assert (row g i ∈ sorted_rows m s) as Hr.
  { apply sorted_rows_elem. by exists g, i. }
  destruct (group_by_id_spec (sorted_rows m s)) as (_ & _ & Hcov).
  specialize (Hcov _ Hr eq_refl). simpl in Hcov.
  apply list_elem_of_fmap in Hcov as (d & Hid & Hd).
  exists d. split; [|done]. unfold listing. by rewrite sort_by_Permutation.
Qed.

End ListingSpec.

(** ** Requests without one of their parameters *)

Lemma args_get_remove_eq key args : args_get key (args_remove key args) = None.
Proof.
  unfold args_remove. induction args as [|[k v] args IH]; [done|].
  rewrite filter_cons. simpl. destruct (decide (k ≠ key)) as [Hne|Heq]; [|done].
  simpl. by rewrite (proj2 (String.eqb_neq k key) Hne).
Qed.

Lemma args_get_remove_ne key key' args :
  key ≠ key' → args_get key' (args_remove key args) = args_get key' args.
Proof.
  intros Hne. unfold args_remove. induction args as [|[k v] args IH]; [done|].
  rewrite filter_cons. simpl. destruct (decide (k ≠ key)) as [Hk|Hk].
  - simpl. by rewrite IH.
  - apply dec_stable in Hk. subst k.
    by rewrite (proj2 (String.eqb_neq key key') Hne).
Qed.



Lemma page_window_absent default args :
  truthy (args_get "page" args) = false → page_window default args = None.
Proof.
  unfold page_window. destruct (args_get "page" args) as [pg|]; [|done].
  by intros ->.
Qed.





Lemma images_of_status s st id :
  images_of s (Some st) id
  = filter (λ i, Image.group_id i = id ∧ Image.status i = st) (images_collection s).
Proof.
  unfold images_of. apply list_filter_iff. intros i. simpl.
  by rewrite bool_decide_eq_true.
Qed.

(** * [GET /groups] *)

Section GroupsProperties.
Context `{StoreSort}.

(** C4: in every group object of every successful [GET /groups]
    response, filtered or not, paginated or not, [count] equals the
    length of the [images] array. *)
Theorem C4_count_is_images_length default args s body s' tr :
  run (get_groups_with_images default args) s = (Response body 200, s', tr) →
  ∃ groups,
    body = GroupList groups
    ∧ ∀ d, d ∈ groups →
        ∃ imgs, Doc.images d = ImageArr imgs
                ∧ Doc.count d = Some (Z.of_nat (length imgs)).
Proof.
  intros Hrun.
  apply get_groups_success in Hrun as (groups & -> & _ & Hsub & _).
  exists groups. split; [done|]. intros d Hd.
  eapply elem_of_sublist in Hd; [|exact Hsub].
  apply listing_elem in Hd as (g & imgs & _ & _ & _ & Himgs & Hcount & _).
  by exists imgs.
Qed.

(** C5: in every successful [GET /groups] response the groups are in
    ascending order of [name], and the images of each group in
    descending order of [last_updated_at]. *)
Theorem C5_groups_and_images_ordered default args s body s' tr :
  run (get_groups_with_images default args) s = (Response body 200, s', tr) →
  ∃ groups,
    body = GroupList groups
    ∧ StronglySorted name_le groups
    ∧ ∀ d, d ∈ groups →
        ∃ imgs, Doc.images d = ImageArr imgs ∧ StronglySorted newer imgs.
Proof.
  intros Hrun.
  apply get_groups_success in Hrun as (groups & -> & _ & Hsub & _).
  exists groups. split_and!; [done| |].
  - eapply StronglySorted_sublist; [exact Hsub|apply listing_sorted].
  - intros d Hd. eapply elem_of_sublist in Hd; [|exact Hsub].
    apply listing_elem in Hd as (g & imgs & _ & _ & _ & Himgs & _ & _ & Hs & _).
    by exists imgs.
Qed.

(** C10: for every [GET /groups] request, with or without a status
    filter, a stored group that has no image is absent from the
    response, and no group of the response has an empty [images] array
    or a [count] of 0. *)
Theorem C10_group_without_image_absent default args s body s' tr :
  run (get_groups_with_images default args) s = (Response body 200, s', tr) →
  ∃ groups,
    body = GroupList groups
    ∧ (∀ g, g ∈ groups_collection s →
            (∀ i, i ∈ images_collection s → Image.group_id i ≠ Group._id g) →
            ∀ d, d ∈ groups → Doc._id d ≠ Group._id g)
    ∧ ∀ d, d ∈ groups → Doc.images d ≠ ImageArr [] ∧ Doc.count d ≠ Some 0.
Proof.
  intros Hrun.
  apply get_groups_success in Hrun as (groups & -> & _ & Hsub & _).
  exists groups. split_and!; [done| |].
  - intros g Hg Hnone d Hd Hid. eapply elem_of_sublist in Hd; [|exact Hsub].
    apply listing_elem
      in Hd as (g' & imgs & _ & _ & _ & _ & _ & Hne & _ & Hin & _).
    destruct imgs as [|i imgs]; [done|].
    specialize (Hin i (list_elem_of_here _ _)).
    apply list_elem_of_filter in Hin as [[Hgi _] Hi].
    apply (Hnone i Hi). congruence.
  - intros d Hd. eapply elem_of_sublist in Hd; [|exact Hsub].
    apply listing_elem
      in Hd as (g' & imgs & _ & _ & _ & Himgs & Hcount & Hne & _).
    rewrite Himgs, Hcount. split; [congruence|].
    destruct imgs; [done|]. simpl. intros [=]; lia.
Qed.

(** C1, as amended: for every [GET /groups] request whose status filter
    is in the configured set, every group of a successful response is a
    stored group that has an image with that status, and its [images]
    array holds exactly the images of that group with that status, so a
    group whose images all fail the filter is absent; when the request
    asks for no page, the response is successful and holds exactly the
    groups that have an image with that status, each once. *)
Theorem C1_status_filter default args s st :
  args_get "status" args = Some st → st ∈ VALID_STATUSES →
  NoDup (Group._id <$> groups_collection s) →
  (∀ body s' tr,
     run (get_groups_with_images default args) s = (Response body 200, s', tr) →
     ∃ groups,
     body = GroupList groups
     ∧ (∀ d, d ∈ groups →
        ∃ g imgs,
          g ∈ groups_collection s ∧ Doc._id d = Group._id g
          ∧ Doc.images d = ImageArr imgs ∧ imgs ≠ []
          ∧ (∀ i, i ∈ imgs → Image.status i = st)
          ∧ imgs ≡ₚ filter (λ i, Image.group_id i = Group._id g ∧ Image.status i = st)
                      (images_collection s))
     ∧ (∀ g, g ∈ groups_collection s →
          (∀ i, i ∈ images_collection s → Image.group_id i = Group._id g →
                Image.status i ≠ st) →
          ∀ d, d ∈ groups → Doc._id d ≠ Group._id g))
  ∧ (truthy (args_get "page" args) = false →
     ∃ groups,
       run (get_groups_with_images default args) s
       = (Response (GroupList groups) 200, s,
          [Issued (aggregate_groups (pipeline_of (Some st)))])
       ∧ NoDup (Doc._id <$> groups)
       ∧ ∀ g, g ∈ groups_collection s →
           ((∃ d, d ∈ groups ∧ Doc._id d = Group._id g)
            ↔ (∃ i, i ∈ images_collection s ∧ Image.group_id i = Group._id g
                    ∧ Image.status i = st))).
Proof.
  intros Hget Hst Hnd.
  destruct (effective_filter_valid args st Hget Hst) as [Hm Hrej].
  assert (Hlisted : ∀ d, d ∈ listing (Some st) s →
            ∃ g imgs,
              g ∈ groups_collection s ∧ Doc._id d = Group._id g
              ∧ Doc.images d = ImageArr imgs ∧ imgs ≠ []
              ∧ (∀ i, i ∈ imgs → Image.status i = st)
              ∧ imgs ≡ₚ filter (λ i, Image.group_id i = Group._id g ∧ Image.status i = st)
                          (images_collection s)).
  { intros d Hd.
    apply listing_elem
      in Hd as (g & imgs & Hg & Hid & _ & Himgs & _ & Hne & _ & Hin & Hperm).
    exists g, imgs. split_and!; try done.
    - intros i Hi. apply Hin in Hi. rewrite images_of_status in Hi.
      by apply list_elem_of_filter in Hi as [[_ Hi] _].
    - rewrite <- Hid, <- images_of_status. by apply Hperm. }
  split.
  - intros body s' tr Hrun.
    apply get_groups_success in Hrun as (groups & -> & _ & Hsublist & _).
    rewrite Hm in Hsublist.
    assert (∀ d, d ∈ groups → d ∈ listing (Some st) s) as Hsub.
    { intros d Hd. by eapply elem_of_sublist. }
    exists groups. split; [done|]. split.
    + intros d Hd. by apply Hlisted, Hsub.
    + intros g Hg Hnone d Hd Hid.
      destruct (Hlisted d (Hsub d Hd)) as (g' & imgs & _ & Hid' & _ & Hne & Hall & Hperm).
      destruct imgs as [|i imgs]; [done|].
      assert (i ∈ filter (λ i, Image.group_id i = Group._id g' ∧ Image.status i = st)
                    (images_collection s)) as Hi.
      { rewrite <- Hperm. left. }
      apply list_elem_of_filter in Hi as [[Hgi Hsi] Hi].
      apply (Hnone i Hi); [congruence|done].
  - intros Hpage. exists (listing (Some st) s). split_and!.
    + rewrite get_groups_cases, Hrej, (page_window_absent _ _ Hpage), Hm.
      apply run_respond_listing.
    + apply listing_NoDup.
    + intros g Hg. split.
      * intros (d & Hd & Hid).
        destruct (Hlisted d Hd) as (g' & imgs & _ & Hid' & _ & Hne & Hall & Hperm).
        destruct imgs as [|i imgs]; [done|].
        assert (i ∈ filter (λ i, Image.group_id i = Group._id g' ∧ Image.status i = st)
                      (images_collection s)) as Hi.
        { rewrite <- Hperm. left. }
        apply list_elem_of_filter in Hi as [[Hgi Hsi] Hi].
        exists i. split_and!; [done| |done]. congruence.
      * intros (i & Hi & Hgi & Hsi).
        apply (listing_cover (Some st) s g i Hg Hi Hgi).
        simpl. by apply bool_decide_eq_true.
Qed.

(** C8, as amended: for every [GET /groups] request that supplies a
    non-empty status which is not in the configured set, the handler
    answers 400 with name "Invalid status" and a description that prints
    the configured set, and calls the store for nothing. *)
Theorem C8_invalid_status_rejected default args st :
  args_get "status" args = Some st → st ≠ "" → st ∉ VALID_STATUSES →
  get_groups_with_images default args
  = Ret (Response
           (Envelope 400 "Invalid status"
              "Valid statuses are - ['new', 'review', 'accepted', 'deleted']") 400)
  ∧ ∀ s,
      run (get_groups_with_images default args) s
      = (Response
           (Envelope 400 "Invalid status"
              ("Valid statuses are - " +:+ repr_list VALID_STATUSES)) 400,
         s, []).
Proof.
  intros Hget Hne Hst.
  assert (status_rejected args = true) as Hrej.
  { unfold status_rejected. rewrite Hget.
    assert (truthy (Some st) = true) as -> by (by destruct st).
    rewrite bool_decide_eq_false_2; [done|]. by rewrite escape_valid. }
  rewrite get_groups_cases, Hrej. done.
Qed.



End GroupsProperties.

(** * [PUT /images/<image_id>] *)

Lemma update_first_spec id st now images :
  match list_find (λ i, Image._id i = id) images with
  | None =>
      update_first id st now images
      = (images, {| matched_count := 0; modified_count := 0 |})
  | Some (k, i) =>
      update_first id st now images
      = (<[k := with_status st now i]> images,
         {| matched_count := 1;
            modified_count :=
              if decide (Image.status i = st ∧ Image.last_updated_at i = now)
              then 0 else 1 |})
  end.
Proof.
  induction images as [|i images IH]; [done|]. simpl.
  destruct (decide (Image._id i = id)) as [Hid|Hid]; [done|].
  destruct (list_find _ images) as [[k j]|]; simpl; by rewrite IH.
Qed.

Lemma current_status_find s id :
  current_status s id
  = match list_find (λ i, Image._id i = id) (images_collection s) with
    | Some (_, i) => Some (Image.status i)
    | None => None
    end.
Proof.
  unfold current_status. by destruct (list_find _ _) as [[k i]|].
Qed.

Section UpdateProperties.
Context `{StoreSort}.

(** C2: for every [PUT /images/<image_id>] request with a well-formed
    identifier and a valid requested status equal to the image's
    current status, the handler answers 200 with the message
    "Requested status is the same as current" and writes nothing: the
    only operation issued is the read, and the store, with every field
    of every image, is what it was. *)
Theorem C2_same_status_no_write now image_id oid st :
  ObjectId_of image_id = inr oid → st ∈ VALID_STATUSES →
  (∃ k, update_image_status now image_id (JStr st) = Call (find_one_status oid) k
        ∧ k (Returned (Some st))
          = Ret (Response (Message "Requested status is the same as current") 200))
  ∧ ∀ s, current_status s oid = Some st →
      run (update_image_status now image_id (JStr st)) s
      = (Response (Message "Requested status is the same as current") 200,
         s, [Issued (find_one_status oid)]).
Proof.
  intros Hoid Hst. unfold update_image_status. rewrite Hoid.
  rewrite bool_decide_eq_false_2 by (by intros Hn).
  split.
  - eexists. split; [done|]. simpl.
    by rewrite bool_decide_eq_false_2 by (by intros Hn).
  - intros s Hcur. cbn [run exec]. rewrite Hcur.
    by rewrite bool_decide_eq_false_2 by (by intros Hn).
Qed.


End UpdateProperties.

(** * [GET /statistics] *)

Lemma bump_split st counts :
  ((st ∉ counts.*1) ∧ bump st counts = counts ++ [(st, 1)])
  ∨ (∃ l1 c l2, counts = l1 ++ (st, c) :: l2 ∧ bump st counts = l1 ++ (st, c + 1) :: l2).
Proof.
  induction counts as [|[k c] counts IH]; simpl.
  - left. split; [apply not_elem_of_nil|done].
  - destruct (decide (k = st)) as [->|Hne].
    + right. by exists [], c, counts.
    + destruct IH as [[Hnot ->]|(l1 & c' & l2 & -> & ->)].
      * left. split; [|done]. rewrite not_elem_of_cons. split; [congruence|done].
      * right. by exists ((k, c) :: l1), c', l2.
Qed.

Lemma count_status_snoc st images i :
  count_status st (images ++ [i])
  = (count_status st images + if decide (Image.status i = st) then 1 else 0)%nat.
Proof.
  unfold count_status. rewrite filter_app, length_app. f_equal.
  rewrite filter_cons. by destruct (decide _).
Qed.

Lemma count_images_spec images :
  NoDup (count_images images).*1
  ∧ ∀ st c, (st, c) ∈ count_images images
            ↔ c = Z.of_nat (count_status st images) ∧ 0 < c.
Proof.
  unfold count_images. induction images as [|i images IH] using rev_ind.
  { split; [constructor|]. intros st c. simpl. rewrite elem_of_nil.
    unfold count_status. simpl. lia. }
  rewrite foldl_app. simpl. destruct IH as [Hnd Hspec].
  set (counts := foldl (λ acc i, bump (Image.status i) acc) [] images) in *.
  destruct (bump_split (Image.status i) counts)
    as [[Hnot ->]|(l1 & c0 & l2 & Hcounts & ->)].
  - split.
    + rewrite fmap_app. apply NoDup_app. split_and!; [done| |apply NoDup_singleton].
      intros x Hx ->%list_elem_of_singleton. done.
    + intros st c. rewrite elem_of_app, list_elem_of_singleton, Hspec, count_status_snoc.
      destruct (decide (Image.status i = st)) as [<-|Hne].
      * assert (count_status (Image.status i) images = 0%nat) as Hzero.
        { destruct (count_status (Image.status i) images) as [|n] eqn:Hn; [done|].
          exfalso. apply Hnot.
          apply (list_elem_of_fmap_2' fst _ (Image.status i, Z.of_nat (S n))); [|done].
          apply Hspec. rewrite Hn. lia. }
        rewrite Hzero. split.
        -- intros [[-> ?]|[= ->]]; lia.
        -- intros [-> _]. right. done.
      * rewrite Nat.add_0_r. split; [|tauto]. intros [?|[= ? _]]; done.
  - rewrite Hcounts in Hnd, Hspec.
    assert (Hkeys : (l1 ++ (Image.status i, c0 + 1) :: l2).*1
                    = (l1 ++ (Image.status i, c0) :: l2).*1).
    { by rewrite !fmap_app. }
    split; [by rewrite Hkeys|].
    assert (Hc0 : c0 = Z.of_nat (count_status (Image.status i) images) ∧ 0 < c0).
    { apply Hspec. apply elem_of_app. right. left. }
    intros st c. rewrite count_status_snoc.
    destruct (decide (Image.status i = st)) as [<-|Hne].
    + split.
      * intros Hin.
        assert (c = c0 + 1) as ->; [|lia].
        rewrite fmap_app, fmap_cons in Hnd. simpl in Hnd.
        apply NoDup_app in Hnd as (Hnd1 & Hdisj & Hnd2).
        apply NoDup_cons in Hnd2 as [Hnot2 _].
        apply elem_of_app in Hin as [Hin|Hin].
        { exfalso. apply (Hdisj (Image.status i)); [|left].
          by apply (list_elem_of_fmap_2' fst _ (Image.status i, c)). }
        apply elem_of_cons in Hin as [[= ->]|Hin]; [done|].
        exfalso. apply Hnot2.
        by apply (list_elem_of_fmap_2' fst _ (Image.status i, c)).
      * intros [-> _]. apply elem_of_app. right.
        replace (Z.of_nat (count_status (Image.status i) images + 1)) with (c0 + 1) by lia.
        left.
    + rewrite Nat.add_0_r, <- Hspec, !elem_of_app, !elem_of_cons.
      split; (intros [?|[[= ? ?]|?]]; [by left|done|by right; right]).
Qed.

Lemma dict_of_items_counts counts d :
  dict_of_items (uncurry ID_count <$> counts) d
  = inr (foldl (λ m kv, <[kv.1 := kv.2]> m) d counts).
Proof.
  revert d. induction counts as [|[k c] counts IH]; intros d; [done|].
  simpl. apply IH.
Qed.

Lemma foldl_insert_list_to_map (counts : list (string * Z)) :
  foldl (λ m kv, <[kv.1 := kv.2]> m) (∅ : gmap string Z) counts
  = list_to_map (reverse counts).
Proof.
  induction counts as [|kv counts IH] using rev_ind; [done|].
  rewrite foldl_app, reverse_snoc. simpl. by rewrite IH.
Qed.

Lemma mapM_image_of images : mapM image_of (ID_image <$> images) = Some images.
Proof.
  apply mapM_Some. induction images; constructor; done.
Qed.

Lemma filter_created_between gte lte (images : list Image.t) :
  filter (λ d, created_between gte lte d = true) (ID_image <$> images)
  = ID_image <$> filter (λ i, gte ≤ Image.created_at i ∧ Image.created_at i ≤ lte) images.
Proof.
  induction images as [|i images IH]; [done|].
  rewrite fmap_cons, !filter_cons, IH. simpl.
  destruct (decide (gte ≤ Image.created_at i ∧ Image.created_at i ≤ lte)) as [Hin|Hout].
  - rewrite decide_True; [done|].
    apply andb_true_iff. by rewrite !bool_decide_eq_true.
  - rewrite decide_False; [done|].
    rewrite andb_true_iff, !bool_decide_eq_true. done.
Qed.

Section StatisticsProperties.
Context `{StoreSort}.

(** C9: [GET /statistics] answers 200 with an object that maps each
    status to the number of images with that status whose [created_at]
    lies in [[now - window, now]], bounds included, the window being the
    configured number of days; a status without such an image is not a
    key of the object; images created outside the window count for
    nothing; and no parameter of the request changes the answer. *)
Theorem C9_statistics_window days now args s :
  ∃ statistics,
    run (get_statistics days now args) s
    = (Response (Counts statistics) 200, s,
       [Issued (aggregate_images
                  [IS_match_created_at (now - days * MS_PER_DAY) now;
                   IS_group_status])])
    ∧ (∀ st,
         statistics !! st
         = let n := count_status st
                      (filter (in_window days now) (images_collection s)) in
           if decide (n = 0%nat) then None else Some (Z.of_nat n))
    ∧ ∀ args', get_statistics days now args' = get_statistics days now args.
Proof.
  set (inside := filter (in_window days now) (images_collection s)).
  exists (list_to_map (reverse (count_images inside))).
  destruct (count_images_spec inside) as [Hnd Hspec].
  assert (Hnd' : NoDup (reverse (count_images inside)).*1).
  { by rewrite fmap_reverse, reverse_Permutation. }
  split_and!.
  - unfold get_statistics. cbn [run exec run_image_pipeline run_image_stage].
    rewrite filter_created_between. fold (in_window days now).
    fold inside. rewrite mapM_image_of. simpl.
    fold (count_images inside).
    rewrite dict_of_items_counts, foldl_insert_list_to_map. done.
  - intros st. cbv zeta.
    destruct (list_to_map (reverse (count_images inside)) !! st) as [c|] eqn:Hlook.
    + apply elem_of_list_to_map in Hlook; [|done].
      apply elem_of_reverse, Hspec in Hlook as [-> Hpos].
      rewrite decide_False by lia. done.
    + destruct (decide (count_status st inside = 0%nat)) as [Hz|Hnz]; [done|].
      assert ((st, Z.of_nat (count_status st inside)) ∈ reverse (count_images inside))
        as Hin.
      { apply elem_of_reverse, Hspec. lia. }
      apply elem_of_list_to_map in Hin; [|done]. congruence.
  - done.
Qed.

End StatisticsProperties.

(** * The handlers on the sample store *)

Lemma sample_store_ids : NoDup (Group._id <$> groups_collection sample_store).
Proof. apply (bool_decide_unpack _). vm_compute. exact I. Defined.

Lemma new_is_valid : "new" ∈ VALID_STATUSES.
Proof. left. Defined.


Lemma sample_image_oid : ObjectId_of sample_image_id = inr (oid_of_N 10).
Proof. reflexivity. Defined.

Lemma C1_status_filter_witness :
  ∃ groups,
    run (get_groups_with_images 5 [("status", "new")]) sample_store
    = (Response (GroupList groups) 200, sample_store,
       [Issued (aggregate_groups (pipeline_of (Some "new")))])
    ∧ NoDup (Doc._id <$> groups)
    ∧ ∀ g, g ∈ groups_collection sample_store →
        ((∃ d, d ∈ groups ∧ Doc._id d = Group._id g)
         ↔ (∃ i, i ∈ images_collection sample_store
                 ∧ Image.group_id i = Group._id g ∧ Image.status i = "new")).
Proof.
  apply (proj2 (C1_status_filter 5 [("status", "new")] sample_store "new"
                  eq_refl new_is_valid sample_store_ids)).
  reflexivity.
Defined.

(** With a page, a group that has an image with the requested status can
    be missing from the response: the first page, of one group, holds
    "Group 0" and not "Group 1". *)
Lemma C1_counterexample :
  "new" ∈ VALID_STATUSES
  ∧ args_get "status" page_request = Some "new"
  ∧ ∃ groups,
      run (get_groups_with_images 5 page_request) sample_store
      = (Response (GroupList groups) 200, sample_store,
         [Issued (aggregate_groups (pipeline_of (Some "new") ++ [S_skip 0; S_limit 1]))])
      ∧ ∃ g i,
          g ∈ groups_collection sample_store ∧ i ∈ images_collection sample_store
          ∧ Image.group_id i = Group._id g ∧ Image.status i = "new"
          ∧ ∀ d, d ∈ groups → Doc._id d ≠ Group._id g.
Proof.
  split; [left|]. split; [reflexivity|].
  eexists. split; [vm_compute; reflexivity|].
  exists (Group.mk (oid_of_N 1) "Group 1"), (sample_image 11 1 "new" 5 9).
  split_and!; [left|right; left|reflexivity|reflexivity|].
  intros d ->%list_elem_of_singleton. by vm_compute.
Qed.

Lemma C2_same_status_no_write_witness :
  run (update_image_status 100 sample_image_id (JStr "new")) sample_store
  = (Response (Message "Requested status is the same as current") 200,
     sample_store, [Issued (find_one_status (oid_of_N 10))]).
Proof.
  apply (proj2 (C2_same_status_no_write 100 sample_image_id (oid_of_N 10) "new"
                  sample_image_oid new_is_valid)).
  reflexivity.
Defined.


Lemma C4_count_is_images_length_witness :
  ∃ body,
    (run (get_groups_with_images 5 page_request) sample_store).1.1
    = Response body 200
    ∧ ∃ groups,
        body = GroupList groups
        ∧ ∀ d, d ∈ groups →
            ∃ imgs, Doc.images d = ImageArr imgs
                    ∧ Doc.count d = Some (Z.of_nat (length imgs)).
Proof.
  eexists. split; [vm_compute; reflexivity|].
  eapply (C4_count_is_images_length 5 page_request sample_store).
  vm_compute. reflexivity.
Defined.

Lemma C5_groups_and_images_ordered_witness :
  ∃ body,
    (run (get_groups_with_images 5 []) sample_store).1.1 = Response body 200
    ∧ ∃ groups,
        body = GroupList groups
        ∧ StronglySorted name_le groups
        ∧ ∀ d, d ∈ groups →
            ∃ imgs, Doc.images d = ImageArr imgs ∧ StronglySorted newer imgs.
Proof.
  eexists. split; [vm_compute; reflexivity|].
  eapply (C5_groups_and_images_ordered 5 [] sample_store).
  vm_compute. reflexivity.
Defined.





Lemma C8_invalid_status_rejected_witness :
  run (get_groups_with_images 5 [("status", "approved"); ("page", "x")]) sample_store
  = (Response
       (Envelope 400 "Invalid status"
          ("Valid statuses are - " +:+ repr_list VALID_STATUSES)) 400,
     sample_store, []).
Proof.
  apply (C8_invalid_status_rejected 5 [("status", "approved"); ("page", "x")] "approved").
  - reflexivity.
  - discriminate.
  - apply (bool_decide_unpack _). vm_compute. exact I.
Defined.

(** An empty status is supplied and is no valid status, yet the handler
    runs the unfiltered pipeline and answers 200. *)
Lemma C8_counterexample :
  args_get "status" [("status", "")] = Some ""
  ∧ ("" ∉ VALID_STATUSES)
  ∧ ∃ groups,
      run (get_groups_with_images 5 [("status", "")]) sample_store
      = (Response (GroupList groups) 200, sample_store,
         [Issued (aggregate_groups
                    [S_lookup; S_unwind; S_sort_last_updated; S_group; S_sort_name])]).
Proof.
  split; [reflexivity|]. split.
  - apply (bool_decide_unpack _). vm_compute. exact I.
  - eexists. vm_compute. reflexivity.
Qed.

Lemma C10_group_without_image_absent_witness :
  ∃ body,
    (run (get_groups_with_images 5 []) sample_store).1.1 = Response body 200
    ∧ ∃ groups,
        body = GroupList groups
        ∧ (∀ g, g ∈ groups_collection sample_store →
                (∀ i, i ∈ images_collection sample_store →
                      Image.group_id i ≠ Group._id g) →
                ∀ d, d ∈ groups → Doc._id d ≠ Group._id g)
        ∧ ∀ d, d ∈ groups → Doc.images d ≠ ImageArr [] ∧ Doc.count d ≠ Some 0.
Proof.
  eexists. split; [vm_compute; reflexivity|].
  eapply (C10_group_without_image_absent 5 [] sample_store).
  vm_compute. reflexivity.
Defined.

(** * Further properties of [PUT /images/<image_id>] *)

Lemma run_answers `{StoreSort} {R : Type} (p : prog R) (s : Store) :
  answers p (run p s).2 (run p s).1.1.
Proof.
  revert s. induction p as [r|T o k IH]; intros s; simpl; [done|].
  destruct (exec o s) as [res s1] eqn:Hexec.
  specialize (IH res s1). destruct (run (k res) s1) as [[r s2] tr]. simpl in *.
  by exists res, tr.
Qed.


(** X2: [update_image_status] lets no exception of the store through: when
    the read raises, the answer is the 500 envelope named "MongoDB
    exeption occured" with the text of the exception, and no write is
    attempted; when the write raises, the answer is that envelope too. *)
Theorem update_store_failure now image_id oid st :
  ObjectId_of image_id = inr oid → st ∈ VALID_STATUSES →
  ∃ k,
    update_image_status now image_id (JStr st) = Call (find_one_status oid) k
    ∧ (∀ err, k (Raised err) = Ret (store_failure err))
    ∧ ∀ current, current ≠ Some st →
        ∃ k', k (Returned current) = Call (update_one_status oid st now) k'
              ∧ ∀ err, k' (Raised err) = Ret (store_failure err).
Proof.
  intros Hoid Hst. unfold update_image_status. rewrite Hoid.
  rewrite bool_decide_eq_false_2 by (by intros Hn).
  eexists. split_and!; [done|done|].
  intros current Hcur. simpl. rewrite bool_decide_eq_true_2 by congruence.
  eexists. split; [done|]. done.
Qed.


Section UpdateRuns.
Context `{StoreSort}.

(** A run of [update_image_status] on the reference store leaves the store
    as it was, or rewrites one image and answers "Image status updated". *)
Lemma run_update_cases now image_id v s :
  ((run (update_image_status now image_id v) s).1.2 = s
   ∧ (run (update_image_status now image_id v) s).1.1
     ≠ Response (Message "Image status updated") 200)
  ∨ ∃ oid st k i,
      ObjectId_of image_id = inr oid ∧ v = JStr st ∧ st ∈ VALID_STATUSES
      ∧ list_find (λ i, Image._id i = oid) (images_collection s) = Some (k, i)
      ∧ Image.status i ≠ st
      ∧ run (update_image_status now image_id v) s
        = (Response (Message "Image status updated") 200,
           {| groups_collection := groups_collection s;
              images_collection :=
                <[k := with_status st now i]> (images_collection s) |},
           [Issued (find_one_status oid); Issued (update_one_status oid st now)]).
Proof.
  unfold update_image_status.
  destruct (ObjectId_of image_id) as [err|oid] eqn:Hoid; [by left|].
  destruct v as [st|]; [|by left].
  destruct (bool_decide (st ∉ VALID_STATUSES)) eqn:Hst; [by left|].
  apply bool_decide_eq_false in Hst. apply dec_stable in Hst.
  cbn [run exec].
  destruct (bool_decide (Some st ≠ current_status s oid)) eqn:Hcur; [|by left].
  apply bool_decide_eq_true in Hcur. cbn [run exec].
  rewrite current_status_find in Hcur.
  pose proof (update_first_spec oid st now (images_collection s)) as Hupd.
  destruct (list_find _ (images_collection s)) as [[k i]|] eqn:Hfind;
    rewrite Hupd; simpl.
  - right. exists oid, st, k, i.
    assert (Image.status i ≠ st) as Hne by congruence.
    split_and!; try done.
    rewrite decide_False by (intros [Hs _]; congruence). done.
  - left. split; [by destruct s|done].
Qed.

(** X3: whatever the request, [update_image_status] leaves the groups as
    they are and keeps the images in place with their [_id], [group_id],
    [created_at] and [url]; an image with another identifier than the
    requested one is not changed at all, and the store is changed only
    when the answer is "Image status updated". *)
Theorem update_frame now image_id v s :
  let out := run (update_image_status now image_id v) s in
  groups_collection out.1.2 = groups_collection s
  ∧ Image._id <$> images_collection out.1.2 = Image._id <$> images_collection s
  ∧ Image.group_id <$> images_collection out.1.2
    = Image.group_id <$> images_collection s
  ∧ Image.created_at <$> images_collection out.1.2
    = Image.created_at <$> images_collection s
  ∧ Image.url <$> images_collection out.1.2 = Image.url <$> images_collection s
  ∧ (∀ k i, images_collection s !! k = Some i →
            ObjectId_of image_id ≠ inr (Image._id i) →
            images_collection out.1.2 !! k = Some i)
  ∧ (out.1.1 ≠ Response (Message "Image status updated") 200 → out.1.2 = s).
Proof.
  cbv zeta.
  destruct (run_update_cases now image_id v s)
    as [[Hsame Hnot]|(oid & st & k & i & Hoid & -> & Hst & Hfind & Hne & Hrun)].
  - rewrite Hsame. split_and!; done.
  - rewrite Hrun. simpl.
    apply list_find_Some in Hfind as (Hk & Hid & _).
    assert (Hmap : ∀ {B : Type} (f : Image.t → B),
              f (with_status st now i) = f i →
              f <$> <[k := with_status st now i]> (images_collection s)
              = f <$> images_collection s).
    { intros B f Hf. rewrite list_fmap_insert, Hf.
      apply list_insert_id. by rewrite list_lookup_fmap, Hk. }
    split_and!; try done; try (by apply Hmap).
    intros k' i' Hk' Hoid'. rewrite list_lookup_insert_ne; [done|].
    intros <-. rewrite Hk in Hk'. injection Hk' as <-. congruence.
Qed.

Lemma list_find_with_status oid st now k i (images : list Image.t) :
  list_find (λ i, Image._id i = oid) images = Some (k, i) →
  list_find (λ i, Image._id i = oid) (<[k := with_status st now i]> images)
  = Some (k, with_status st now i).
Proof.
  intros (Hk & Hid & Hfirst)%list_find_Some. apply list_find_Some. split_and!.
  - apply list_lookup_insert_eq. by eapply lookup_lt_Some.
  - done.
  - intros j y Hj Hlt. rewrite list_lookup_insert_ne in Hj by lia.
    by eapply Hfirst.
Qed.

(** X4: once an image has the requested status, the same request is a
    no-op: after any run of [update_image_status] on an image that exists,
    the image's current status is the requested one, and running the
    request again, at any later time, answers "Requested status is the same
    as current" with the read alone and leaves the store as the first run
    left it. *)
Theorem update_then_repeat now now' image_id oid st s :
  ObjectId_of image_id = inr oid → st ∈ VALID_STATUSES →
  is_Some (current_status s oid) →
  let s' := (run (update_image_status now image_id (JStr st)) s).1.2 in
  current_status s' oid = Some st
  ∧ run (update_image_status now' image_id (JStr st)) s'
    = (Response (Message "Requested status is the same as current") 200,
       s', [Issued (find_one_status oid)]).
Proof.
  intros Hoid Hst Hsome. cbv zeta.
  set (s' := (run (update_image_status now image_id (JStr st)) s).1.2).
  assert (current_status s' oid = Some st) as Hcur.
  { subst s'.
    destruct (run_update_cases now image_id (JStr st) s)
      as [[Hsame Hnot]|(oid' & st' & k & i & Hoid' & [= <-] & _ & Hfind & Hne & Hrun)].
    - rewrite Hsame.
      destruct (decide (current_status s oid = Some st)) as [Hcur|Hcur]; [done|].
      exfalso. apply Hnot.
      rewrite current_status_find in Hsome, Hcur.
      unfold update_image_status. rewrite Hoid.
      rewrite bool_decide_eq_false_2 by (by intros Hn). cbn [run exec].
      rewrite current_status_find.
      pose proof (update_first_spec oid st now (images_collection s)) as Hupd.
      destruct (list_find _ (images_collection s)) as [[k i]|] eqn:Hfind;
        [|by destruct Hsome].
      rewrite bool_decide_eq_true_2 by congruence. cbn [run exec].
      rewrite Hupd. simpl.
      rewrite decide_False by (intros [Hs _]; congruence). done.
    - rewrite Hoid in Hoid'. injection Hoid' as <-.
      rewrite Hrun. unfold current_status. simpl.
      by rewrite (list_find_with_status oid st now k i _ Hfind). }
  split; [done|].
  unfold update_image_status. rewrite Hoid.
  rewrite bool_decide_eq_false_2 by (by intros Hn). cbn [run exec].
  rewrite Hcur. by rewrite bool_decide_eq_false_2 by (by intros Hn).
Qed.

End UpdateRuns.

(** * Further properties of [GET /groups] *)



(** X6: [get_groups_with_images] reads the parameters status, page and
    groups_per_page only, and one of them with an empty value counts as
    absent: without a parameter that is another one, or whose (first)
    value is empty, the handler is the same program. *)
Theorem removable_parameter default args key :
  key ∉ GROUPS_PARAMETERS ∨ args_get key args = Some "" →
  get_groups_with_images default args
  = get_groups_with_images default (args_remove key args).
Proof.
  intros Hkey. rewrite !get_groups_cases.
  assert (Hread : ∀ name, name ∈ GROUPS_PARAMETERS →
            truthy (args_get name (args_remove key args))
            = truthy (args_get name args)
            ∧ (truthy (args_get name args) = true →
               args_get name (args_remove key args) = args_get name args)).
  { intros name Hname. destruct (decide (key = name)) as [->|Hne].
    - destruct Hkey as [Hkey|Hempty]; [done|].
      rewrite args_get_remove_eq, Hempty. done.
    - by rewrite args_get_remove_ne. }
  assert (Hsame : ∀ name, name ∈ GROUPS_PARAMETERS →
            match args_get name (args_remove key args) with
            | Some v => if truthy (Some v) then Some v else None
            | None => None
            end
            = match args_get name args with
              | Some v => if truthy (Some v) then Some v else None
              | None => None
              end).
  { intros name Hname. destruct (Hread name Hname) as [Ht Hv].
    destruct (args_get name args) as [v|] eqn:Hget.
    - destruct (truthy (Some v)) eqn:Htr.
      + by rewrite Hv, Htr.
      + destruct (args_get name (args_remove key args)) as [v'|]; [|done].
        by rewrite Ht.
    - destruct (args_get name (args_remove key args)) as [v'|]; [|done].
      by rewrite Ht. }
  assert (Hstatus := Hsame "status" ltac:(left)).
  assert (Hpage := Hsame "page" ltac:(right; left)).
  assert (Hgpp := Hsame "groups_per_page" ltac:(right; right; left)).
  assert (status_rejected (args_remove key args) = status_rejected args) as ->.
  { unfold status_rejected.
    destruct (args_get "status" (args_remove key args)) as [v'|],
             (args_get "status" args) as [v|];
      try destruct (truthy (Some v')) eqn:Hv'; try destruct (truthy (Some v)) eqn:Hv;
      simplify_eq; done. }
  assert (effective_filter (args_remove key args) = effective_filter args) as ->.
  { unfold effective_filter.
    destruct (args_get "status" (args_remove key args)) as [v'|],
             (args_get "status" args) as [v|];
      try destruct (truthy (Some v')) eqn:Hv'; try destruct (truthy (Some v)) eqn:Hv;
      simplify_eq; done. }
  assert (py_or (args_get "groups_per_page" (args_remove key args)) (PInt default)
          = py_or (args_get "groups_per_page" args) (PInt default)) as Hor.
  { unfold py_or.
    destruct (args_get "groups_per_page" (args_remove key args)) as [v'|],
             (args_get "groups_per_page" args) as [v|];
      try destruct (truthy (Some v')) eqn:Hv'; try destruct (truthy (Some v)) eqn:Hv;
      simplify_eq; done. }
  assert (page_window default (args_remove key args) = page_window default args) as ->.
  { unfold page_window. rewrite Hor.
    destruct (args_get "page" (args_remove key args)) as [v'|],
             (args_get "page" args) as [v|];
      try destruct (truthy (Some v')) eqn:Hv'; try destruct (truthy (Some v)) eqn:Hv;
      simplify_eq; try done. }
  done.
Qed.

Section GroupsFurther.
Context `{StoreSort}.

(** X7: in every 200 answer of [GET /groups], paginated or not, no group
    comes twice, every group has the identifier and the name of a stored
    group, and each of its images is an image of the store whose
    [group_id] is that identifier. *)
Theorem groups_mirror_store default args s body s' tr :
  run (get_groups_with_images default args) s = (Response body 200, s', tr) →
  ∃ groups,
    body = GroupList groups
    ∧ NoDup (Doc._id <$> groups)
    ∧ ∀ d, d ∈ groups →
        (∃ g, g ∈ groups_collection s
              ∧ Doc._id d = Group._id g ∧ Doc.name d = Group.name g)
        ∧ ∃ imgs, Doc.images d = ImageArr imgs
                  ∧ ∀ i, i ∈ imgs →
                      i ∈ images_collection s ∧ Image.group_id i = Doc._id d.
Proof.
  intros Hrun.
  apply get_groups_success in Hrun as (groups & -> & _ & Hsub & _).
  exists groups. split_and!; [done| |].
  - eapply sublist_NoDup; [apply listing_NoDup|by apply fmap_sublist].
  - intros d Hd. apply (elem_of_sublist _ _ _ Hd) in Hsub as Hd'.
    apply listing_elem
      in Hd' as (g & imgs & Hg & Hid & Hname & Himgs & _ & _ & _ & Hin & _).
    split; [by exists g|]. exists imgs. split; [done|].
    intros i Hi. apply Hin in Hi.
    apply list_elem_of_filter in Hi as [[Hgi _] Hi]. done.
Qed.



End GroupsFurther.

(** ** [GET /statistics] *)


Section StatisticsFurther.
Context `{StoreSort}.

Lemma run_get_statistics days now args s :
  run (get_statistics days now args) s
  = (Response (Counts (statistics_of days now s)) 200, s,
     [Issued (aggregate_images
                [IS_match_created_at (now - days * MS_PER_DAY) now;
                 IS_group_status])]).
Proof.
  unfold get_statistics, statistics_of.
  cbn [run exec run_image_pipeline run_image_stage].
  rewrite filter_created_between. fold (in_window days now).
  rewrite mapM_image_of. simpl.
  fold (count_images (filter (in_window days now) (images_collection s))).
  by rewrite dict_of_items_counts, foldl_insert_list_to_map.
Qed.

End StatisticsFurther.

Lemma statistics_of_lookup days now s st :
  statistics_of days now s !! st
  = let n := count_status st (filter (in_window days now) (images_collection s)) in
    if decide (n = 0%nat) then None else Some (Z.of_nat n).
Proof.
  unfold statistics_of.
  set (inside := filter (in_window days now) (images_collection s)).
  destruct (count_images_spec inside) as [Hnd Hspec].
  assert (Hnd' : NoDup (reverse (count_images inside)).*1).
  { by rewrite fmap_reverse, reverse_Permutation. }
  cbv zeta.
  destruct (list_to_map (reverse (count_images inside)) !! st) as [c|] eqn:Hlook.
  - apply elem_of_list_to_map in Hlook; [|done].
    apply elem_of_reverse, Hspec in Hlook as [-> Hpos].
    rewrite decide_False by lia. done.
  - destruct (decide (count_status st inside = 0%nat)) as [Hz|Hnz]; [done|].
    assert ((st, Z.of_nat (count_status st inside)) ∈ reverse (count_images inside))
      as Hin.
    { apply elem_of_reverse, Hspec. lia. }
    apply elem_of_list_to_map in Hin; [|done]. congruence.
Qed.

Lemma sum_counts_Permutation (l k : list (string * Z)) :
  l ≡ₚ k →
  foldr (λ kv acc, kv.2 + acc) 0 l = foldr (λ kv acc, kv.2 + acc) 0 k.
Proof. induction 1; simpl; lia. Qed.

Lemma sum_counts_bump st counts :
  foldr (λ kv acc, kv.2 + acc) 0 (bump st counts)
  = 1 + foldr (λ kv acc, kv.2 + acc) 0 counts.
Proof.
  induction counts as [|[k c] counts IH]; simpl; [done|].
  destruct (decide (k = st)); simpl; lia.
Qed.

Lemma sum_counts_count_images images :
  foldr (λ kv acc, kv.2 + acc) 0 (count_images images) = Z.of_nat (length images).
Proof.
  unfold count_images. induction images as [|i images IH] using rev_ind; [done|].
  rewrite foldl_app, length_app. simpl. rewrite sum_counts_bump, IH. lia.
Qed.

Lemma statistics_of_total days now s :
  total (statistics_of days now s)
  = Z.of_nat (length (filter (in_window days now) (images_collection s))).
Proof.
  unfold total, statistics_of. rewrite map_fold_foldr.
  set (inside := filter (in_window days now) (images_collection s)).
  destruct (count_images_spec inside) as [Hnd _].
  rewrite <-(sum_counts_count_images inside).
  etrans; [|apply sum_counts_Permutation, reverse_Permutation].
  etrans; [|apply sum_counts_Permutation, map_to_list_to_map].
  - apply foldr_ext; [by intros [] ?|done..].
  - by rewrite fmap_reverse, reverse_Permutation.
Qed.

(** Replacing an element of a list by one that a predicate does not tell
    apart keeps the number of elements the predicate holds of. *)
Lemma length_filter_insert {A} (P : A → Prop) `{!∀ x, Decision (P x)}
    (l : list A) k x y :
  l !! k = Some x → (P x ↔ P y) →
  length (filter P (<[k := y]> l)) = length (filter P l).
Proof.
  revert k. induction l as [|a l IH]; intros [|k] Hk Hxy; simplify_eq/=; [|].
  - rewrite !filter_cons. destruct (decide (P y)), (decide (P x)); tauto || done.
  - rewrite !filter_cons. destruct (decide (P a)); simpl; by rewrite IH.
Qed.

Lemma count_status_filter st (P : Image.t → Prop) `{!∀ x, Decision (P x)} images :
  count_status st (filter P images)
  = length (filter (λ i, P i ∧ Image.status i = st) images).
Proof.
  unfold count_status. induction images as [|i images IH]; [done|].
  rewrite !filter_cons.
  destruct (decide (P i)) as [HP|HP].
  - rewrite filter_cons. destruct (decide (Image.status i = st)).
    + rewrite decide_True by done. simpl. by rewrite IH.
    + rewrite decide_False by tauto. done.
  - rewrite decide_False by tauto. done.
Qed.

Section StatisticsTotals.
Context `{StoreSort}.

(** X11: the counts of the object that [GET /statistics] answers add up
    to the number of images created in the window, and every count is at
    least 1. *)
Theorem statistics_total days now args s :
  ∃ statistics,
    (run (get_statistics days now args) s).1.1 = Response (Counts statistics) 200
    ∧ total statistics
      = Z.of_nat (length (filter (in_window days now) (images_collection s)))
    ∧ ∀ st count, statistics !! st = Some count → 1 ≤ count.
Proof.
  exists (statistics_of days now s). rewrite run_get_statistics. split_and!; [done| |].
  - apply statistics_of_total.
  - intros st count. rewrite statistics_of_lookup. cbv zeta.
    destruct (decide _); intros [=]. lia.
Qed.

(** X12: a [PUT] on an image moves at most one image from one count of
    the statistics to another: whatever the request, the statistics asked
    after it have the same total as before it, and a status that is neither
    the requested one nor the one the image had keeps its count. *)
Theorem update_moves_one_count now image_id v s days t args :
  let s' := (run (update_image_status now image_id v) s).1.2 in
  ∃ before after,
    (run (get_statistics days t args) s).1.1 = Response (Counts before) 200
    ∧ (run (get_statistics days t args) s').1.1 = Response (Counts after) 200
    ∧ total after = total before
    ∧ ∀ st,
        v ≠ JStr st →
        (∀ oid, ObjectId_of image_id = inr oid → current_status s oid ≠ Some st) →
        after !! st = before !! st.
Proof.
  intros s'. exists (statistics_of days t s), (statistics_of days t s').
  rewrite !run_get_statistics. split_and!; [done..| |].
  - rewrite !statistics_of_total. f_equal. subst s'.
    destruct (run_update_cases now image_id v s)
      as [[-> _]|(oid & st & k & i & _ & _ & _ & Hfind & _ & ->)]; [done|].
    simpl. apply list_find_Some in Hfind as (Hk & _ & _).
    by apply (length_filter_insert _ _ k i).
  - intros st' Hv Hcur. rewrite !statistics_of_lookup. cbv zeta. subst s'.
    destruct (run_update_cases now image_id v s)
      as [[-> _]|(oid & st & k & i & Hoid & -> & _ & Hfind & _ & ->)]; [done|].
    simpl. specialize (Hcur oid Hoid). unfold current_status in Hcur.
    rewrite Hfind in Hcur. simpl in Hcur.
    apply list_find_Some in Hfind as (Hk & _ & _).
    rewrite !(count_status_filter st' (in_window days t)).
    rewrite (length_filter_insert _ _ k i); [done..|].
    simpl. split; intros [_ Hst]; [|congruence].
    destruct Hcur. by rewrite Hst.
Qed.

End StatisticsTotals.

(** * A [PUT] followed by a [GET] *)

Section UpdateThenList.
Context `{StoreSort}.

Lemma run_update_found now image_id oid st s k i :
  ObjectId_of image_id = inr oid → st ∈ VALID_STATUSES →
  list_find (λ i, Image._id i = oid) (images_collection s) = Some (k, i) →
  Image.status i ≠ st →
  run (update_image_status now image_id (JStr st)) s
  = (Response (Message "Image status updated") 200,
     {| groups_collection := groups_collection s;
        images_collection := <[k := with_status st now i]> (images_collection s) |},
     [Issued (find_one_status oid); Issued (update_one_status oid st now)]).
Proof.
  intros Hoid Hst Hfind Hne.
  unfold update_image_status. rewrite Hoid.
  rewrite bool_decide_eq_false_2 by (by intros Hn). cbn [run exec].
  rewrite current_status_find.
  pose proof (update_first_spec oid st now (images_collection s)) as Hupd.
  rewrite Hfind in Hupd |- *.
  rewrite bool_decide_eq_true_2 by (simpl; congruence). cbn [run exec].
  rewrite Hupd. simpl.
  rewrite decide_False by (intros [Hs _]; congruence). done.
Qed.

(** X13: the image a [PUT] has just updated leads its group: when the
    update is stamped later than every image of the store, the next
    [GET /groups] without status and page has the group of the image, and
    the first of that group's images is the image with its new status and
    the time of the update. *)
Theorem updated_image_comes_first now image_id oid st s k i g default args :
  ObjectId_of image_id = inr oid → st ∈ VALID_STATUSES →
  list_find (λ i, Image._id i = oid) (images_collection s) = Some (k, i) →
  Image.status i ≠ st →
  (∀ j, j ∈ images_collection s → Image.last_updated_at j < now) →
  g ∈ groups_collection s → Image.group_id i = Group._id g →
  NoDup (Group._id <$> groups_collection s) →
  args_get "status" args = None → args_get "page" args = None →
  let s' := (run (update_image_status now image_id (JStr st)) s).1.2 in
  ∃ before d rest after,
    (run (get_groups_with_images default args) s').1.1
    = Response (GroupList (before ++ d :: after)) 200
    ∧ Doc._id d = Group._id g
    ∧ Doc.images d = ImageArr (with_status st now i :: rest).
Proof.
  intros Hoid Hst Hfind Hne Hlater Hg Hgi Hnd Hstatus Hpage s'.
  subst s'. rewrite (run_update_found now image_id oid st s k i) by done.
  cbn [fst snd].
  set (s' := {| groups_collection := groups_collection s;
                images_collection := <[k:=with_status st now i]> (images_collection s) |}).
  set (i' := with_status st now i).
  apply list_find_Some in Hfind as (Hk & _ & _).
  assert (i' ∈ images_collection s') as Hi'.
  { apply list_elem_of_lookup. exists k. simpl.
    apply list_lookup_insert_eq. by eapply lookup_lt_Some. }
  assert (effective_filter args = None) as Hfilter.
  { unfold effective_filter. by rewrite Hstatus. }
  assert (status_rejected args = false) as Hrej.
  { unfold status_rejected. by rewrite Hstatus. }
  rewrite get_groups_cases, Hrej, page_window_absent by (by rewrite Hpage).
  rewrite Hfilter, run_respond_listing. cbn [fst].
  destruct (listing_cover None s' g i') as (d & Hd & Hid); [done..|].
  pose proof Hd as Hd'.
  apply listing_elem
    in Hd' as (_ & imgs & _ & _ & _ & Himgs & _ & Hnil & Hsorted & Hin & Hperm).
  specialize (Hperm Hnd).
  apply list_elem_of_split in Hd as (before & after & Hsplit).
  destruct imgs as [|h rest]; [done|].
  exists before, d, rest, after. rewrite Hsplit. split_and!; [done..|].
  rewrite Himgs. f_equal. f_equal.
  assert (i' ∈ h :: rest) as Hmem.
  { rewrite Hperm. apply list_elem_of_filter. by rewrite Hid. }
  assert (now ≤ Image.last_updated_at h) as Hh.
  { apply elem_of_cons in Hmem as [<-|Hmem]; [done|].
    apply StronglySorted_inv in Hsorted as [_ Hall].
    rewrite Forall_forall in Hall. apply (Hall i' Hmem). }
  assert (h ∈ images_collection s') as Hhs.
  { assert (h ∈ images_of s' None (Doc._id d)) as Hh' by (apply Hin; left).
    by apply list_elem_of_filter in Hh' as [_ Hh']. }
  apply list_elem_of_lookup in Hhs as [j Hj]. simpl in Hj.
  destruct (decide (j = k)) as [->|Hjk].
  - rewrite list_lookup_insert_eq in Hj by (by eapply lookup_lt_Some).
    by injection Hj.
  - rewrite list_lookup_insert_ne in Hj by done.
    apply list_elem_of_lookup_2, Hlater in Hj. lia.
Qed.

End UpdateThenList.

(** * What a 400 answer echoes *)







(** * The further properties on the sample store *)


Lemma update_store_failure_witness :
  ∃ k,
    update_image_status 100 sample_image_id (JStr "accepted")
    = Call (find_one_status (oid_of_N 10)) k
    ∧ (∀ err, k (Raised err) = Ret (store_failure err))
    ∧ ∀ current, current ≠ Some "accepted" →
        ∃ k', k (Returned current)
              = Call (update_one_status (oid_of_N 10) "accepted" 100) k'
              ∧ ∀ err, k' (Raised err) = Ret (store_failure err).
Proof.
  apply (update_store_failure 100 sample_image_id (oid_of_N 10) "accepted").
  - reflexivity.
  - right. right. left.
Defined.

Lemma update_then_repeat_witness :
  let s' := (run (update_image_status 100 sample_image_id (JStr "accepted"))
               sample_store).1.2 in
  current_status s' (oid_of_N 10) = Some "accepted"
  ∧ run (update_image_status 200 sample_image_id (JStr "accepted")) s'
    = (Response (Message "Requested status is the same as current") 200,
       s', [Issued (find_one_status (oid_of_N 10))]).
Proof.
  apply (update_then_repeat 100 200 sample_image_id (oid_of_N 10) "accepted"
           sample_store).
  - reflexivity.
  - right. right. left.
  - exists "new". reflexivity.
Defined.


Lemma removable_parameter_witness :
  get_groups_with_images 5 [("sort", "name"); ("status", "new")]
  = get_groups_with_images 5 (args_remove "sort" [("sort", "name"); ("status", "new")]).
Proof.
  apply (removable_parameter 5 [("sort", "name"); ("status", "new")] "sort").
  left. apply (bool_decide_unpack _). vm_compute. exact I.
Defined.

Lemma groups_mirror_store_witness :
  ∃ groups,
    GroupList (listing (Some "new") sample_store) = GroupList groups
    ∧ NoDup (Doc._id <$> groups)
    ∧ ∀ d, d ∈ groups →
        (∃ g, g ∈ groups_collection sample_store
              ∧ Doc._id d = Group._id g ∧ Doc.name d = Group.name g)
        ∧ ∃ imgs, Doc.images d = ImageArr imgs
                  ∧ ∀ i, i ∈ imgs →
                      i ∈ images_collection sample_store
                      ∧ Image.group_id i = Doc._id d.
Proof.
  apply (groups_mirror_store 5 [("status", "new")] sample_store
           (GroupList (listing (Some "new") sample_store)) sample_store
           [Issued (aggregate_groups (pipeline_of (Some "new")))]).
  vm_compute. reflexivity.
Defined.




Lemma updated_image_comes_first_witness :
  let s' := (run (update_image_status 100 sample_image_id (JStr "accepted"))
               sample_store).1.2 in
  ∃ before d rest after,
    (run (get_groups_with_images 5 []) s').1.1
    = Response (GroupList (before ++ d :: after)) 200
    ∧ Doc._id d = Group._id (Group.mk (oid_of_N 0) "Group 0")
    ∧ Doc.images d
      = ImageArr (with_status "accepted" 100 (sample_image 10 0 "new" 5 7) :: rest).
Proof.
  apply (updated_image_comes_first 100 sample_image_id (oid_of_N 10) "accepted"
           sample_store 0 (sample_image 10 0 "new" 5 7)
           (Group.mk (oid_of_N 0) "Group 0") 5 []).
  - reflexivity.
  - right. right. left.
  - reflexivity.
  - by intros [=].
  - apply Forall_forall. repeat constructor; simpl; lia.
  - right. left.
  - reflexivity.
  - apply (bool_decide_unpack _). vm_compute. exact I.
  - reflexivity.
  - reflexivity.
Defined.

